(** * libtextclassifier: hashed token features and the language-id decision

    A shallow embedding of
      - smartselect/token-feature-extractor.cc  (character n-gram hashing,
        dense side features), and
      - lang_id/lang-id.cc                      (model loading, the
        thresholded language decision),
    together with the properties of both that the specification states.

    Conventions.  A [std::string] is a list of bytes ([ascii]).  C++ [int]
    and [size_t] values are integers in [Z]; every implicit conversion the
    source performs is written out ([to_size_t], [to_int]).  A C++ call
    that may raise [std::out_of_range] or divide by zero returns in the
    error monad [Exc].
    A [float] is a rational number: only the order and the three constants
    [1.0], [-1.0], [0.0] are used (NaN and infinities are outside the
    model). *)

From Stdlib Require Import ZArith NArith Ascii String List QArith Bool Lia.
Import ListNotations.

(* ================================================================== *)
(** ** The C++ subset used by the sources *)
(* ================================================================== *)

Module Cxx.

Definition std_string : Type := list ascii.

(** A string literal of the source. *)
Definition lit (s : String.string) : std_string := list_ascii_of_string s.

(** Conversion of an integer to [size_t] / [uint64] (64 bits). *)
Definition to_size_t (x : Z) : Z := x mod 2 ^ 64.

(** Conversion of an integer to [int] (32 bits, two's complement). *)
Definition to_int (x : Z) : Z := (x + 2 ^ 31) mod 2 ^ 32 - 2 ^ 31.

(** The values of type [int]. *)
Definition is_int (x : Z) : Prop := (- 2 ^ 31 <= x < 2 ^ 31)%Z.

(** Closes [is_int x] for a constant [x]. *)
Ltac int_range := vm_compute; split; [discriminate | reflexivity].

(** No [std::string] is longer than [max_size()]. *)
Definition max_size : Z := 2 ^ 63 - 1.

Definition byte_val (c : ascii) : Z := Z.of_N (N_of_ascii c).

(** [isdigit] and [isupper] of <cctype> in the "C" locale. *)
Definition isdigit (c : ascii) : bool :=
  (48 <=? byte_val c)%Z && (byte_val c <=? 57)%Z.

Definition isupper (c : ascii) : bool :=
  (65 <=? byte_val c)%Z && (byte_val c <=? 90)%Z.

(** The two ways a call of the modelled code can fail to return:
    [std::out_of_range] raised by [substr], and an integer division by
    zero. *)
Inductive failure : Type :=
| out_of_range
| division_by_zero.

Inductive Exc (A : Type) : Type :=
| Ret (a : A)
| Fail (f : failure).

Arguments Ret {A} a.
Arguments Fail {A} f.

Definition bind {A B} (m : Exc A) (k : A -> Exc B) : Exc B :=
  match m with
  | Ret a => k a
  | Fail f => Fail f
  end.

(** A call returns (does not fail). *)
Definition returns {A} (r : Exc A) : Prop := exists a, r = Ret a.

(** Every value a call returns satisfies [P]. *)
Definition returned {A} (P : A -> Prop) (r : Exc A) : Prop :=
  match r with
  | Ret a => P a
  | Fail _ => True
  end.

(** [s.size()] *)
Definition size (s : std_string) : Z := Z.of_nat (length s).

(** [s.substr(pos, n)] with [pos] and [n] already converted to [size_t]:
    raises when [pos > size()], else the [min n (size - pos)] bytes from
    [pos]. *)
Definition substr (s : std_string) (pos n : Z) : Exc std_string :=
  if (size s <? pos)%Z then Fail out_of_range
  else Ret (firstn (Z.to_nat (Z.min n (size s - pos))) (skipn (Z.to_nat pos) s)).

(** [v.resize(n)] on a vector of vectors: keeps the first [n] elements and
    pads with empty vectors. *)
Definition resize {A} (v : list (list A)) (n : nat) : list (list A) :=
  firstn n v ++ repeat [] (n - length v).

End Cxx.

Export Cxx.

Declare Scope exc_scope.
Delimit Scope exc_scope with exc.
Notation "x <- m ;; k" := (bind m (fun x => k))
  (at level 61, m at next level, right associativity) : exc_scope.

(* ================================================================== *)
(** ** External collaborators *)
(* ================================================================== *)

(** util/hash/farmhash.h: the 64-bit string fingerprint.  Its value is
    read as an unsigned 64-bit integer. *)
Class Farmhash : Type := Fingerprint64 : std_string -> Z.

(** The parts of ICU the extractor calls: [u_isdigit], [u_isupper] on
    codepoints, [RegexPattern::compile] (a null pointer on failure is
    [None]) and [RegexMatcher::find]. *)
Class ICU : Type := {
  u_isdigit : Z -> bool;
  u_isupper : Z -> bool;
  RegexPattern : Type;
  RegexPattern_compile : std_string -> option RegexPattern;
  RegexMatcher_find : RegexPattern -> std_string -> bool
}.

(** On ASCII codepoints ICU's digit class is the one of <cctype>. *)
Definition icu_digits_ascii `{ICU} : Prop :=
  forall c : ascii, (byte_val c < 128)%Z -> u_isdigit (byte_val c) = isdigit c.

(* ================================================================== *)
(** ** util/utf8/unicodetext.h *)
(* ================================================================== *)

Module Utf8.

(** Modelled from the spec: [UnicodeText] (util/utf8/unicodetext.h is not
    among the sources).  The specification asks of it to "convert between
    raw bytes and codepoint sequences" and to "iterate codepoints".  A
    text is the sequence of its codepoints, each kept as its UTF-8 bytes;
    an iterator is an index into that sequence ([begin] is 0, [end] its
    length), [++] and [--] move it by one codepoint, and
    [UTF8Substring first last] is the bytes of the codepoints in
    [first, last).  A sequence cut short by the end of the string is kept
    as a shorter last codepoint. *)
Definition UnicodeText : Type := list std_string.

(** Length in bytes of the character that starts with byte [c], read
    from the high four bits of the lead byte. *)
Definition OneCharLen (c : ascii) : nat :=
  let hi := (byte_val c / 16)%Z in
  if (hi <? 12)%Z then 1%nat
  else if (hi <? 14)%Z then 2%nat
  else if (hi <? 15)%Z then 3%nat
  else 4%nat.

Fixpoint chars_of (fuel : nat) (s : std_string) : UnicodeText :=
  match fuel, s with
  | O, _ => []
  | _, [] => []
  | S fuel', c :: s' =>
      (c :: firstn (OneCharLen c - 1) s')
        :: chars_of fuel' (skipn (OneCharLen c - 1) s')
  end.

Definition UTF8ToUnicodeText (s : std_string) : UnicodeText :=
  chars_of (length s) s.

Definition UTF8Substring (t : UnicodeText) (first last : nat) : std_string :=
  concat (firstn (last - first) (skipn first t)).

(** The codepoint an iterator dereferences to. *)
Definition codepoint (ch : std_string) : Z :=
  match ch with
  | [] => 0
  | [b0] => byte_val b0
  | [b0; b1] =>
      Z.lor (Z.shiftl (Z.land (byte_val b0) 31) 6) (Z.land (byte_val b1) 63)
  | [b0; b1; b2] =>
      Z.lor (Z.shiftl (Z.land (byte_val b0) 15) 12)
        (Z.lor (Z.shiftl (Z.land (byte_val b1) 63) 6)
           (Z.land (byte_val b2) 63))
  | b0 :: b1 :: b2 :: b3 :: _ =>
      Z.lor (Z.shiftl (Z.land (byte_val b0) 7) 18)
        (Z.lor (Z.shiftl (Z.land (byte_val b1) 63) 12)
           (Z.lor (Z.shiftl (Z.land (byte_val b2) 63) 6)
              (Z.land (byte_val b3) 63)))
  end.

(** The strings of ASCII bytes: they hold one codepoint for every byte. *)
Definition ascii_only (s : std_string) : Prop :=
  Forall (fun c => (byte_val c < 128)%Z) s.

(** The strings in which no sequence is cut short by the end of the
    string: every lead byte is followed by as many bytes as it
    announces.  On these an iterator that steps by [OneCharLen] of the
    byte it points to arrives at the end exactly; what the iterators of
    unicodetext.h do on the other strings is not among the sources. *)
Definition complete_sequences (s : std_string) : bool :=
  forallb (fun ch => match ch with
                     | [] => true
                     | c :: _ => (length ch =? OneCharLen c)%nat
                     end)
    (UTF8ToUnicodeText s).

End Utf8.

Export Utf8.

(* ================================================================== *)
(** ** smartselect/token-feature-extractor.cc *)
(* ================================================================== *)

Module Smartselect.

Local Open Scope Z_scope.
Local Open Scope exc_scope.

Record Token : Type := {
  value : std_string;
  is_padding : bool;
  is_in_span : bool
}.

Record TokenFeatureExtractorOptions : Type := {
  num_buckets : Z;
  chargram_orders : list Z;
  max_word_length : Z;
  remap_digits : bool;
  unicode_aware_features : bool;
  extract_case_feature : bool;
  extract_selection_mask_feature : bool;
  regexp_features : list std_string
}.

(** Options under which no call of the extractor fails: [num_buckets]
    is a non-zero [int], [max_word_length] an [int], and no n-gram order
    is negative. *)
Definition sane_options (o : TokenFeatureExtractorOptions) : Prop :=
  is_int (num_buckets o) /\ num_buckets o <> 0 /\
  is_int (max_word_length o) /\
  Forall (fun k => 0 <= k) (chargram_orders o).

(** The object: its options and the compiled patterns, a null pointer
    ([None]) standing for a pattern that did not compile. *)
Record TokenFeatureExtractor `{ICU} : Type := {
  options_ : TokenFeatureExtractorOptions;
  regex_patterns_ : list (option RegexPattern)
}.

(** The constructor: every pattern is compiled and its pointer pushed,
    whatever the status ICU reports. *)
Definition New `{ICU} (options : TokenFeatureExtractorOptions) : TokenFeatureExtractor :=
  {| options_ := options;
     regex_patterns_ := map RegexPattern_compile (regexp_features options) |}.

(** The float constants the extractor emits. *)
Definition f_one : Q := 1 # 1.
Definition f_minus_one : Q := (-1) # 1.
Definition f_zero : Q := 0 # 1.

Definition zero_char : ascii := "0"%char.

Definition MapDigitsToZeroAscii (token : std_string) : std_string :=
  map (fun c => if isdigit c then zero_char else c) token.

Definition MapDigitsToZeroUnicode `{ICU} (token : std_string) : UnicodeText :=
  UTF8ToUnicodeText
    (concat (map (fun ch => if u_isdigit (codepoint ch) then [zero_char] else ch)
               (UTF8ToUnicodeText token))).

Section Methods.

Context `{Farmhash} `{ICU}.
Variable self : TokenFeatureExtractor.

(** [Fingerprint64(token) % options_.num_buckets], the [int] operand
    converted to [uint64] and the result converted to [int]. *)
Definition HashToken (token : std_string) : Exc Z :=
  let n := to_size_t (num_buckets (options_ self)) in
  if n =? 0 then Fail division_by_zero
  else Ret (to_int (to_size_t (Fingerprint64 token) mod n)).

(** The ids of the hash buckets. *)
Definition bucket (id : Z) : Prop :=
  0 <= id < num_buckets (options_ self).

(** The body of both n-gram loops of the byte-oriented extractor: [cnt]
    iterations from index [i], each pushing
    [HashToken(feature_word.substr(i, order))]. *)
Fixpoint chargram_loop (feature_word : std_string) (order i : Z) (cnt : nat)
  : Exc (list Z) :=
  match cnt with
  | O => Ret []
  | S cnt' =>
      g <- substr feature_word (to_size_t i) (to_size_t order) ;;
      h <- HashToken g ;;
      r <- chargram_loop feature_word order (i + 1) cnt' ;;
      Ret (h :: r)
  end.

(** The bound of the second loop,
    [static_cast<int>(feature_word.size()) - chargram_order + 1], is
    computed in [int].  Signed overflow is undefined in C++: the source
    has a meaning only when the order is an [int] and neither the
    subtraction nor the addition leaves [int]. *)
Definition int_bound_defined (feature_word : std_string) (chargram_order : Z)
  : Prop :=
  is_int chargram_order /\
  is_int (to_int (size feature_word) - chargram_order) /\
  is_int (to_int (size feature_word) - chargram_order + 1).

(** One iteration of [for (int chargram_order : options_.chargram_orders)]
    in the byte-oriented extractor.  The bound of the second loop is
    written in [Z]: it is the [int] the source computes wherever
    [int_bound_defined] holds. *)
Definition chargrams_ascii (feature_word : std_string) (chargram_order : Z)
  : Exc (list Z) :=
  if chargram_order =? 1 then
    (* for (int i = 1; i < feature_word.size() - 1; ++i) *)
    chargram_loop feature_word 1 1 (Z.to_nat (size feature_word - 1 - 1))
  else
    (* for (int i = 0; i < static_cast<int>(size) - chargram_order + 1; ++i) *)
    chargram_loop feature_word chargram_order 0
      (Z.to_nat (to_int (size feature_word) - chargram_order + 1)).

(** The loop over the configured orders, appending to [result]. *)
Fixpoint for_each_order (body : Z -> Exc (list Z)) (orders : list Z)
  : Exc (list Z) :=
  match orders with
  | [] => Ret []
  | k :: rest =>
      r <- body k ;;
      rs <- for_each_order body rest ;;
      Ret (r ++ rs)
  end.

Definition caret : std_string := lit "^".
Definition dollar : std_string := lit "$".
Definition separator : std_string := [ascii_of_nat 1].
Definition pad_token : std_string := lit "<PAD>".

(** The feature word of the byte-oriented extractor. *)
Definition feature_word_ascii (token : Token) : Exc std_string :=
  let word :=
    if remap_digits (options_ self) then MapDigitsToZeroAscii (value token)
    else value token in
  let max_word_length := max_word_length (options_ self) in
  if to_size_t max_word_length <? size word then
    pre <- substr word 0 (to_size_t (Z.quot max_word_length 2)) ;;
    suf <- substr word (to_size_t (size word - Z.quot max_word_length 2))
             (to_size_t (Z.quot max_word_length 2)) ;;
    Ret (caret ++ pre ++ separator ++ suf ++ dollar)
  else
    Ret (caret ++ word ++ dollar).

Definition ExtractCharactergramFeaturesAscii (token : Token) : Exc (list Z) :=
  if is_padding token then
    h <- HashToken pad_token ;; Ret [h]
  else
    feature_word <- feature_word_ascii token ;;
    for_each_order (chargrams_ascii feature_word)
      (chargram_orders (options_ self)).

(** The search for the two cut points: [cnt] iterations of the loop
    body on the iterators [left_cut] and [right_cut]. *)
Fixpoint cut_loop (cnt : nat) (left_cut right_cut : nat) : nat * nat :=
  match cnt with
  | O => (left_cut, right_cut)
  | S cnt' =>
      let left_cut := if (left_cut <? right_cut)%nat then S left_cut else left_cut in
      let right_cut := if (left_cut <? right_cut)%nat then pred right_cut else right_cut in
      cut_loop cnt' left_cut right_cut
  end.

(** The feature word of the Unicode-aware extractor. *)
Definition feature_word_unicode (token : Token) : std_string :=
  let word : UnicodeText :=
    if remap_digits (options_ self) then MapDigitsToZeroUnicode (value token)
    else UTF8ToUnicodeText (value token) in
  let '(left_cut, right_cut) :=
    cut_loop (Z.to_nat (Z.quot (max_word_length (options_ self)) 2))
      0%nat (length word) in
  if (left_cut =? right_cut)%nat then
    caret ++ UTF8Substring word 0 (length word) ++ dollar
  else
    caret ++ UTF8Substring word 0 left_cut ++ separator
      ++ UTF8Substring word right_cut (length word) ++ dollar.

(** [for (int i = 0; i < chargram_order; ++i)]: advances
    [it_chargram_end]; [None] when the n-gram is not complete. *)
Fixpoint advance_end (cnt : nat) (it_chargram_end it_end : nat) : option nat :=
  match cnt with
  | O => Some it_chargram_end
  | S cnt' =>
      let it_chargram_end := S it_chargram_end in
      if (it_end <=? it_chargram_end)%nat then None
      else advance_end cnt' it_chargram_end it_end
  end.

(** [for (; it_chargram_end <= it_end; ++it_chargram_start,
    ++it_chargram_end)], at most [fuel] iterations. *)
Fixpoint emit_loop (fuel : nat) (text : UnicodeText)
  (it_chargram_start it_chargram_end it_end : nat) : Exc (list Z) :=
  match fuel with
  | O => Ret []
  | S fuel' =>
      if (it_chargram_end <=? it_end)%nat then
        h <- HashToken (UTF8Substring text it_chargram_start it_chargram_end) ;;
        r <- emit_loop fuel' text (S it_chargram_start) (S it_chargram_end) it_end ;;
        Ret (h :: r)
      else Ret []
  end.

(** One iteration of the loop over the orders in the Unicode-aware
    extractor. *)
Definition chargrams_unicode (feature_word_unicode : UnicodeText)
  (chargram_order : Z) : Exc (list Z) :=
  let it_start := if chargram_order =? 1 then 1%nat else 0%nat in
  let it_end :=
    if chargram_order =? 1 then pred (length feature_word_unicode)
    else length feature_word_unicode in
  match advance_end (Z.to_nat chargram_order) it_start it_end with
  | None => Ret []
  | Some it_chargram_end =>
      emit_loop (S (S (length feature_word_unicode))) feature_word_unicode
        it_start it_chargram_end it_end
  end.

Definition ExtractCharactergramFeaturesUnicode (token : Token) : Exc (list Z) :=
  if is_padding token then
    h <- HashToken pad_token ;; Ret [h]
  else
    for_each_order
      (chargrams_unicode (UTF8ToUnicodeText (feature_word_unicode token)))
      (chargram_orders (options_ self)).

Definition ExtractCharactergramFeatures (token : Token) : Exc (list Z) :=
  if unicode_aware_features (options_ self) then
    ExtractCharactergramFeaturesUnicode token
  else
    ExtractCharactergramFeaturesAscii token.

(** The case feature: the first codepoint under [u_isupper] in
    Unicode-aware mode, the first byte under [isupper] otherwise. *)
Definition case_feature (token : Token) : Q :=
  if unicode_aware_features (options_ self) then
    match UTF8ToUnicodeText (value token) with
    | first :: _ => if u_isupper (codepoint first) then f_one else f_minus_one
    | [] => f_minus_one
    end
  else
    match value token with
    | first :: _ => if isupper first then f_one else f_minus_one
    | [] => f_minus_one
    end.

Definition selection_mask_feature (token : Token) : Q :=
  if is_in_span token then f_one
  else if unicode_aware_features (options_ self) then f_minus_one
  else f_zero.

(** One iteration of the loop over [regex_patterns_]. *)
Definition regexp_feature (token : Token) (pattern : option RegexPattern) : Q :=
  match pattern with
  | None => f_minus_one
  | Some p => if RegexMatcher_find p (value token) then f_one else f_minus_one
  end.

(** [Extract] on one token.  An output pointer is [None] when null and
    [Some v] when it points to a vector holding [v]; the result is the
    flag returned with what the two pointers point to afterwards. *)
Definition Extract (token : Token) (sparse_features : option (list Z))
  (dense_features : option (list Q))
  : Exc (bool * option (list Z) * option (list Q)) :=
  match sparse_features, dense_features with
  | Some _, Some dense =>
      sparse <- ExtractCharactergramFeatures token ;;
      let dense :=
        if extract_case_feature (options_ self)
        then dense ++ [case_feature token] else dense in
      let dense :=
        if extract_selection_mask_feature (options_ self)
        then dense ++ [selection_mask_feature token] else dense in
      let dense :=
        match regex_patterns_ self with
        | [] => dense
        | patterns => dense ++ map (regexp_feature token) patterns
        end in
      Ret (true, Some sparse, Some dense)
  | _, _ => Ret (false, sparse_features, dense_features)
  end.

(** The loop of the batch form over the tokens and the resized output
    vectors, element [i] of each passed by address. *)
Fixpoint Extract_loop (tokens : list Token) (sparse : list (list Z))
  (dense : list (list Q)) : Exc (bool * list (list Z) * list (list Q)) :=
  match tokens, sparse, dense with
  | token :: tokens', s :: sparse', d :: dense' =>
      r <- Extract token (Some s) (Some d) ;;
      let '(extracted, s_out, d_out) := r in
      let s := match s_out with Some v => v | None => s end in
      let d := match d_out with Some v => v | None => d end in
      if negb extracted then Ret (false, s :: sparse', d :: dense')
      else
        r' <- Extract_loop tokens' sparse' dense' ;;
        let '(all_extracted, ss, ds) := r' in
        Ret (all_extracted, s :: ss, d :: ds)
  | _, _, _ => Ret (true, sparse, dense)
  end.

Definition Extract_tokens (tokens : list Token)
  (sparse_features : option (list (list Z)))
  (dense_features : option (list (list Q)))
  : Exc (bool * option (list (list Z)) * option (list (list Q))) :=
  match sparse_features, dense_features with
  | Some sparse, Some dense =>
      r <- Extract_loop tokens (resize sparse (length tokens))
             (resize dense (length tokens)) ;;
      let '(all_extracted, ss, ds) := r in
      Ret (all_extracted, Some ss, Some ds)
  | _, _ => Ret (false, sparse_features, dense_features)
  end.

(** [HashToken] of every string of a list, in order: what a loop pushes
    that hashes these strings one after the other. *)
Fixpoint hash_all (grams : list std_string) : Exc (list Z) :=
  match grams with
  | [] => Ret []
  | g :: rest =>
      h <- HashToken g ;;
      r <- hash_all rest ;;
      Ret (h :: r)
  end.

(** The windows of width [k] of a sequence, from left to right: one for
    every position at which [k] elements remain. *)
Definition windows {A : Type} (k : nat) (l : list A) : list (list A) :=
  map (fun i => firstn k (skipn i l)) (seq 0 (S (length l) - k)).

End Methods.

End Smartselect.

(* ================================================================== *)
(** ** lang_id/lang-id.cc *)
(* ================================================================== *)

Module LangId.

Local Open Scope Z_scope.

(** The collaborators of [LangIdImpl] that live in other files: the
    in-memory model container, the task context, the protocol-buffer
    parsers, the embedding network, the feature interface, the tokenizer
    and the softmax.  A probability is a rational number. *)
Class Collaborators : Type := {
  (** common/task-context.h *)
  TaskContext : Type;
  (** [InMemoryModelData(model_bytes).GetTaskSpec(context.mutable_spec())],
      [None] when it returns false. *)
  GetTaskSpec : std_string -> option TaskContext;
  (** [context->GetInput(name)]: the [file_pattern] of each of its parts
      (none for a name the spec does not hold). *)
  GetInput : TaskContext -> std_string -> list std_string;
  (** [context.Get(name, default)] at type float. *)
  Get : TaskContext -> std_string -> Q -> Q;
  (** [model_data.GetBytesForInputFile(name)], [None] for null data. *)
  GetBytesForInputFile : std_string -> std_string -> option std_string;
  (** common/embedding-network.proto *)
  EmbeddingNetworkProto : Type;
  (** [ParseProtoFromMemory] at [EmbeddingNetworkProto]. *)
  ParseEmbeddingNetworkProto : std_string -> option EmbeddingNetworkProto;
  (** [ParseProtoFromMemory] at [ListOfStrings]: the flag it returns and
      the elements the message holds afterwards. *)
  ParseListOfStrings : std_string -> bool * list std_string;
  (** [EmbeddingNetworkParamsFromProto::is_valid] *)
  params_is_valid : EmbeddingNetworkProto -> bool;
  (** [EmbeddingNetwork::is_valid] of the network built from the params. *)
  network_is_valid : EmbeddingNetworkProto -> bool;
  (** The length of the vector [ComputeFinalScores] fills: the output
      dimension of the final layer. *)
  output_dimension : EmbeddingNetworkProto -> nat;
  (** lang_id/lang-id-brain-interface.h *)
  LangIdBrainInterface : Type;
  brain_default : LangIdBrainInterface;
  (** [lang_id_brain_interface_.Init(&context)]: its flag and the
      interface afterwards. *)
  brain_Init : LangIdBrainInterface -> TaskContext -> bool * LangIdBrainInterface;
  LightSentence : Type;
  FeatureVector : Type;
  TokenizeTextForLangId : std_string -> LightSentence;
  (** [NumEmbeddings] fresh feature vectors filled by [GetFeatures]. *)
  GetFeatures : LangIdBrainInterface -> LightSentence -> list FeatureVector;
  ComputeFinalScores : EmbeddingNetworkProto -> list FeatureVector -> list Q;
  (** common/softmax.h *)
  ComputeSoftmax : list Q -> list Q
}.

(** common/mmap.h: a null [start] is a failed mapping. *)
Record MmapHandle : Type := {
  start : Z;
  to_stringpiece : std_string
}.

Definition ok (h : MmapHandle) : bool := negb (start h =? 0).

Definition kDefaultProbabilityThreshold : Q := 1 # 2.
Definition kInitialDefaultLanguage : std_string := lit "".

Record LangIdImpl `{Collaborators} : Type := {
  lang_id_brain_interface_ : LangIdBrainInterface;
  network_params_ : option EmbeddingNetworkProto;
  network_ : option EmbeddingNetworkProto;
  valid_ : bool;
  probability_threshold_ : Q;
  languages_ : list std_string;
  default_language_ : std_string
}.

(** [probability < probability_threshold_] on floats. *)
Definition float_lt (x y : Q) : bool :=
  (Qnum x * Zpos (Qden y) <? Qnum y * Zpos (Qden x)).

(** Modelled from the spec: [GetArgMax] (common/algorithm.h is not among
    the sources).  The specification asks for the arg-max with "ties for
    arg-max resolved by first occurrence in list order": the scan keeps
    the first element no later element exceeds; 0 on an empty vector. *)
Fixpoint argmax_scan (best_index : nat) (best : Q) (i : nat) (rest : list Q)
  : nat :=
  match rest with
  | [] => best_index
  | x :: rest' =>
      if float_lt best x then argmax_scan i x (S i) rest'
      else argmax_scan best_index best (S i) rest'
  end.

Definition GetArgMax (elements : list Q) : Z :=
  match elements with
  | [] => 0
  | x :: rest => Z.of_nat (argmax_scan 0 x 1 rest)
  end.

(** [v[i]] for an index inside the vector. *)
Definition at_index (v : list Q) (i : Z) : Q := nth (Z.to_nat i) v (0 # 1).

Section Methods.

Context `{Collaborators}.

(** The members of an object whose constructor body has not run yet. *)
Definition uninitialized : LangIdImpl :=
  {| lang_id_brain_interface_ := brain_default;
     network_params_ := None;
     network_ := None;
     valid_ := false;
     probability_threshold_ := kDefaultProbabilityThreshold;
     languages_ := [];
     default_language_ := kInitialDefaultLanguage |}.

Definition set_valid (self : LangIdImpl) (b : bool) : LangIdImpl :=
  {| lang_id_brain_interface_ := lang_id_brain_interface_ self;
     network_params_ := network_params_ self;
     network_ := network_ self;
     valid_ := b;
     probability_threshold_ := probability_threshold_ self;
     languages_ := languages_ self;
     default_language_ := default_language_ self |}.

Definition set_network_params (self : LangIdImpl) (p : option EmbeddingNetworkProto)
  : LangIdImpl :=
  {| lang_id_brain_interface_ := lang_id_brain_interface_ self;
     network_params_ := p;
     network_ := network_ self;
     valid_ := valid_ self;
     probability_threshold_ := probability_threshold_ self;
     languages_ := languages_ self;
     default_language_ := default_language_ self |}.

Definition set_network (self : LangIdImpl) (n : option EmbeddingNetworkProto)
  : LangIdImpl :=
  {| lang_id_brain_interface_ := lang_id_brain_interface_ self;
     network_params_ := network_params_ self;
     network_ := n;
     valid_ := valid_ self;
     probability_threshold_ := probability_threshold_ self;
     languages_ := languages_ self;
     default_language_ := default_language_ self |}.

Definition set_languages (self : LangIdImpl) (l : list std_string) : LangIdImpl :=
  {| lang_id_brain_interface_ := lang_id_brain_interface_ self;
     network_params_ := network_params_ self;
     network_ := network_ self;
     valid_ := valid_ self;
     probability_threshold_ := probability_threshold_ self;
     languages_ := l;
     default_language_ := default_language_ self |}.

Definition set_brain (self : LangIdImpl) (b : LangIdBrainInterface) : LangIdImpl :=
  {| lang_id_brain_interface_ := b;
     network_params_ := network_params_ self;
     network_ := network_ self;
     valid_ := valid_ self;
     probability_threshold_ := probability_threshold_ self;
     languages_ := languages_ self;
     default_language_ := default_language_ self |}.

Definition SetProbabilityThreshold (self : LangIdImpl) (threshold : Q) : LangIdImpl :=
  {| lang_id_brain_interface_ := lang_id_brain_interface_ self;
     network_params_ := network_params_ self;
     network_ := network_ self;
     valid_ := valid_ self;
     probability_threshold_ := threshold;
     languages_ := languages_ self;
     default_language_ := default_language_ self |}.

Definition SetDefaultLanguage (self : LangIdImpl) (lang : std_string) : LangIdImpl :=
  {| lang_id_brain_interface_ := lang_id_brain_interface_ self;
     network_params_ := network_params_ self;
     network_ := network_ self;
     valid_ := valid_ self;
     probability_threshold_ := probability_threshold_ self;
     languages_ := languages_ self;
     default_language_ := lang |}.

(** The empty string when the input does not have exactly one part. *)
Definition GetInMemoryFileNameForTaskInput (input_name : std_string)
  (context : TaskContext) : std_string :=
  match GetInput context input_name with
  | [file_pattern] => file_pattern
  | _ => lit ""
  end.

Definition is_empty (s : std_string) : bool :=
  match s with [] => true | _ => false end.

(** Each method that loads a part of the model returns its flag and the
    object as it leaves it. *)
Definition ParseNetworkParams (self : LangIdImpl) (model_bytes : std_string)
  (context : TaskContext) : bool * LangIdImpl :=
  let input_name := lit "language-identifier-network" in
  let input_file_name := GetInMemoryFileNameForTaskInput input_name context in
  if is_empty input_file_name then (false, self)
  else
    match GetBytesForInputFile model_bytes input_file_name with
    | None => (false, self)
    | Some bytes =>
        match ParseEmbeddingNetworkProto bytes with
        | None => (false, self)
        | Some proto =>
            let self := set_network_params self (Some proto) in
            if negb (params_is_valid proto) then (false, self)
            else (true, self)
        end
    end.

Definition ParseListOfKnownLanguages (self : LangIdImpl) (model_bytes : std_string)
  (context : TaskContext) : bool * LangIdImpl :=
  let input_name := lit "language-name-id-map" in
  let input_file_name := GetInMemoryFileNameForTaskInput input_name context in
  if is_empty input_file_name then (false, self)
  else
    match GetBytesForInputFile model_bytes input_file_name with
    | None => (false, self)
    | Some bytes =>
        match ParseListOfStrings bytes with
        | (false, _) => (false, self)
        | (true, records) =>
            match records with
            | [record] =>
                let '(parsed, elements) := ParseListOfStrings record in
                let self := set_languages self elements in
                if negb parsed then (false, self) else (true, self)
            | _ => (false, self)
            end
        end
    end.

(** [Initialize] as it acts on the object.  Its two [RegisterClass]
    calls act on a registry of the process, which is no member of the
    object and is outside this model. *)
Definition Initialize (self : LangIdImpl) (mmap_handle : MmapHandle) : LangIdImpl :=
  let self := set_valid self false in
  if negb (ok mmap_handle) then self
  else
    let model_bytes := to_stringpiece mmap_handle in
    match GetTaskSpec model_bytes with
    | None => self
    | Some context =>
        let '(parsed, self) := ParseNetworkParams self model_bytes context in
        if negb parsed then self
        else
          let '(parsed, self) := ParseListOfKnownLanguages self model_bytes context in
          if negb parsed then self
          else
            let self := set_network self (network_params_ self) in
            if negb (match network_ self with
                     | Some n => network_is_valid n
                     | None => false
                     end)
            then self
            else
              let self :=
                SetProbabilityThreshold self
                  (Get context (lit "reliability_thresh")
                     kDefaultProbabilityThreshold) in
              let '(initialized, brain) :=
                brain_Init (lang_id_brain_interface_ self) context in
              let self := set_brain self brain in
              if negb initialized then self
              else set_valid self true
    end.

(** The object [Initialize] leaves behind when every step succeeds. *)
Definition loaded (self : LangIdImpl) (context : TaskContext)
  (proto : EmbeddingNetworkProto) (elements : list std_string) : LangIdImpl :=
  {| lang_id_brain_interface_ :=
       snd (brain_Init (lang_id_brain_interface_ self) context);
     network_params_ := Some proto;
     network_ := Some proto;
     valid_ := true;
     probability_threshold_ :=
       Get context (lit "reliability_thresh") kDefaultProbabilityThreshold;
     languages_ := elements;
     default_language_ := default_language_ self |}.

(** Both constructors map their source and call [Initialize] on the
    fresh object. *)
Definition New (mmap_handle : MmapHandle) : LangIdImpl :=
  Initialize uninitialized mmap_handle.

Definition is_valid (self : LangIdImpl) : bool := valid_ self.

(** [network_] is dereferenced only when [valid_] holds; [Initialize]
    sets [valid_] after [network_] (lemma [valid_has_network]). *)
Definition ScoreLanguages (self : LangIdImpl) (text : std_string) : list Q :=
  if negb (is_valid self) then []
  else
    let sentence := TokenizeTextForLangId text in
    let features := GetFeatures (lang_id_brain_interface_ self) sentence in
    match network_ self with
    | Some network => ComputeSoftmax (ComputeFinalScores network features)
    | None => []
    end.

Definition GetLanguageForSoftmaxLabel (self : LangIdImpl) (label : Z) : std_string :=
  if (0 <=? label) && (label <? Z.of_nat (length (languages_ self)))
  then nth (Z.to_nat label) (languages_ self) (lit "")
  else default_language_ self.

Definition FindLanguage (self : LangIdImpl) (text : std_string) : std_string :=
  let scores := ScoreLanguages self text in
  match scores with
  | [] => default_language_ self
  | _ =>
      let label := GetArgMax scores in
      let probability := at_index scores label in
      if float_lt probability (probability_threshold_ self)
      then default_language_ self
      else GetLanguageForSoftmaxLabel self label
  end.

(** [for (int i = 0; i < scores.size(); i++)] from index [i], over the
    scores not yet visited. *)
Fixpoint FindLanguages_loop (self : LangIdImpl) (i : Z) (scores : list Q)
  : list (std_string * Q) :=
  match scores with
  | [] => []
  | score :: rest =>
      (GetLanguageForSoftmaxLabel self i, score)
        :: FindLanguages_loop self (i + 1) rest
  end.

Definition FindLanguages (self : LangIdImpl) (text : std_string)
  : list (std_string * Q) :=
  FindLanguages_loop self 0 (ScoreLanguages self text).

(** The objects a caller can hold: a constructed one, after any number
    of calls of the two setters. *)
Inductive reachable : LangIdImpl -> Prop :=
| reachable_New (mmap_handle : MmapHandle) : reachable (New mmap_handle)
| reachable_SetProbabilityThreshold (self : LangIdImpl) (threshold : Q) :
    reachable self -> reachable (SetProbabilityThreshold self threshold)
| reachable_SetDefaultLanguage (self : LangIdImpl) (lang : std_string) :
    reachable self -> reachable (SetDefaultLanguage self lang).

End Methods.

End LangId.

(* ================================================================== *)
(** ** Sample collaborators *)
(* ================================================================== *)

(** Small executable stand-ins for the collaborators, on which the
    definitions above can be run. *)
Module Sample.

Local Open Scope Z_scope.

(** A polynomial string hash in place of farmhash. *)
Definition fingerprint : Farmhash :=
  fun s => fold_left (fun h c => h * 31 + byte_val c) s 7.

Fixpoint prefixb (p s : std_string) : bool :=
  match p, s with
  | [] , _ => true
  | _ :: _, [] => false
  | a :: p', b :: s' => Ascii.eqb a b && prefixb p' s'
  end.

Fixpoint infixb (p s : std_string) : bool :=
  prefixb p s || match s with [] => false | _ :: s' => infixb p s' end.

(** A fragment of ICU: the ASCII and Arabic-Indic digits, the ASCII and
    Latin-1 capital letters, and patterns that are literal substrings
    (one that holds an opening parenthesis does not compile). *)
Definition icu : ICU :=
  {| u_isdigit := fun c =>
       ((48 <=? c) && (c <=? 57)) || ((1632 <=? c) && (c <=? 1641));
     u_isupper := fun c =>
       ((65 <=? c) && (c <=? 90))
       || ((192 <=? c) && (c <=? 222) && negb (c =? 215));
     RegexPattern := std_string;
     RegexPattern_compile := fun p =>
       if existsb (fun c => byte_val c =? 40) p then None else Some p;
     RegexMatcher_find := fun p s => infixb p s |}.

Definition options (unicode_aware : bool) (orders : list Z) (max_length : Z)
  : Smartselect.TokenFeatureExtractorOptions :=
  {| Smartselect.num_buckets := 1000;
     Smartselect.chargram_orders := orders;
     Smartselect.max_word_length := max_length;
     Smartselect.remap_digits := true;
     Smartselect.unicode_aware_features := unicode_aware;
     Smartselect.extract_case_feature := true;
     Smartselect.extract_selection_mask_feature := true;
     Smartselect.regexp_features := [lit "b"; lit "(b"] |}.

Definition token (s : std_string) : Smartselect.Token :=
  {| Smartselect.value := s;
     Smartselect.is_padding := false;
     Smartselect.is_in_span := false |}.

(** The two UTF-8 bytes of U+00C9, LATIN CAPITAL LETTER E WITH ACUTE. *)
Definition E_acute : std_string := [ascii_of_nat 195; ascii_of_nat 137].

(** The two UTF-8 bytes of U+0663, ARABIC-INDIC DIGIT THREE. *)
Definition Arabic_three : std_string := [ascii_of_nat 217; ascii_of_nat 163].

(** [split sep s]: the pieces of [s] between occurrences of [sep]. *)
Fixpoint split (sep : ascii) (s : std_string) : list std_string :=
  match s with
  | [] => [[]]
  | c :: s' =>
      if Ascii.eqb c sep then [] :: split sep s'
      else match split sep s' with
           | piece :: pieces => (c :: piece) :: pieces
           | [] => [[c]]
           end
  end.

Definition sum_Q (v : list Q) : Q := fold_right Qplus (0 # 1) v.

(** A toy model format.  The first byte is a digit, the number of outputs
    of the network; the remaining bytes are the language codes, separated
    by commas.  The network input is stored under the name
    "language-identifier-network" and the language list, wrapped in a
    one-record list, under "language-name-id-map".  Output [i] of the
    network scores [i + 1] and the softmax stand-in divides by the sum. *)
Definition collaborators : LangId.Collaborators :=
  {| LangId.TaskContext := std_string;
     LangId.GetTaskSpec := fun bytes =>
       match bytes with [] => None | _ => Some bytes end;
     LangId.GetInput := fun _ name => [name];
     LangId.Get := fun _ _ default => default;
     LangId.GetBytesForInputFile := fun bytes name =>
       match bytes with
       | [] => None
       | dim :: langs =>
           if prefixb (lit "language-identifier-network") name then Some [dim]
           else if prefixb (lit "language-name-id-map") name
                then Some ("["%char :: langs)
                else None
       end;
     LangId.EmbeddingNetworkProto := nat;
     LangId.ParseEmbeddingNetworkProto := fun bytes =>
       match bytes with
       | [dim] => if isdigit dim then Some (Z.to_nat (byte_val dim - 48)) else None
       | _ => None
       end;
     LangId.ParseListOfStrings := fun bytes =>
       match bytes with
       | "["%char :: record => (true, [record])
       | _ => (true, split ","%char bytes)
       end;
     LangId.params_is_valid := fun _ => true;
     LangId.network_is_valid := fun _ => true;
     LangId.output_dimension := fun dim => dim;
     LangId.LangIdBrainInterface := unit;
     LangId.brain_default := tt;
     LangId.brain_Init := fun _ _ => (true, tt);
     LangId.LightSentence := std_string;
     LangId.FeatureVector := Z;
     LangId.TokenizeTextForLangId := fun text => text;
     LangId.GetFeatures := fun _ sentence => [size sentence];
     LangId.ComputeFinalScores := fun dim _ =>
       map (fun i => inject_Z (Z.of_nat i + 1)) (seq 0 dim);
     LangId.ComputeSoftmax := fun v => map (fun x => Qred (x / sum_Q v)) v |}.

(** A successful mapping of [bytes] at address [address]. *)
Definition mapped (address : Z) (bytes : std_string) : LangId.MmapHandle :=
  {| LangId.start := address; LangId.to_stringpiece := bytes |}.

(** A model whose network has two outputs and whose language list has
    one entry. *)
Definition two_outputs_one_language : LangId.MmapHandle :=
  mapped 4096 (lit "2en").

(** A model whose network has one output and whose language list has two
    entries. *)
Definition one_output_two_languages : LangId.MmapHandle :=
  mapped 4096 (lit "1en,fr").

(** A well-formed model of two languages. *)
Definition en_fr_first : LangId.MmapHandle := mapped 4096 (lit "2en,fr").

End Sample.

(* ================================================================== *)
(** ** Properties of the language classifier *)
(* ================================================================== *)

Module LangIdProperties.

Import LangId.
Local Open Scope Z_scope.

Lemma float_lt_Qlt (x y : Q) : float_lt x y = true <-> (x < y)%Q.
Proof. unfold float_lt, Qlt. apply Z.ltb_lt. Qed.

Lemma float_lt_false (x y : Q) : float_lt x y = false <-> (y <= x)%Q.
Proof.
  unfold float_lt, Qle. rewrite Z.ltb_ge. reflexivity.
Qed.

Lemma float_lt_irrefl (x : Q) : float_lt x x = false.
Proof. apply float_lt_false. apply Qle_refl. Qed.

(** The scan returns the first position of a greatest element.  The
    vector read so far is [pre]; [best] is its greatest element and
    [best_index] the first position holding it. *)
Lemma argmax_scan_spec (rest : list Q) :
  forall (pre : list Q) (best_index : nat) (best : Q),
    (best_index < length pre)%nat ->
    nth best_index pre (0 # 1) = best ->
    (forall j, (j < length pre)%nat -> float_lt best (nth j pre (0 # 1)) = false) ->
    (forall j, (j < best_index)%nat -> float_lt (nth j pre (0 # 1)) best = true) ->
    let l := pre ++ rest in
    let r := argmax_scan best_index best (length pre) rest in
    (r < length l)%nat /\
    (forall j, (j < length l)%nat ->
               float_lt (nth r l (0 # 1)) (nth j l (0 # 1)) = false) /\
    (forall j, (j < r)%nat ->
               float_lt (nth j l (0 # 1)) (nth r l (0 # 1)) = true).
Proof.
  induction rest as [|x rest IH]; intros pre bi b Hbi Hnth Hmax Hfirst; cbn zeta.
  - rewrite app_nil_r. simpl. rewrite Hnth. auto.
  - simpl argmax_scan.
    assert (Hlen : length (pre ++ [x]) = S (length pre))
      by (rewrite length_app; simpl; lia).
    assert (Hx : nth (length pre) (pre ++ [x]) (0 # 1) = x)
      by (rewrite app_nth2 by lia; rewrite Nat.sub_diag; reflexivity).
    replace (pre ++ x :: rest) with ((pre ++ [x]) ++ rest)
      by (rewrite <- app_assoc; reflexivity).
    destruct (float_lt b x) eqn:Hbx.
    + rewrite <- Hlen. apply IH.
      * lia.
      * exact Hx.
      * intros j Hj. rewrite Hlen in Hj.
        destruct (Nat.eq_dec j (length pre)) as [->|Hne].
        -- rewrite Hx. apply float_lt_irrefl.
        -- rewrite app_nth1 by lia. apply float_lt_false.
           apply Qlt_le_weak. apply Qle_lt_trans with b.
           ++ apply float_lt_false. apply Hmax. lia.
           ++ apply float_lt_Qlt. exact Hbx.
      * intros j Hj. rewrite app_nth1 by lia.
        apply float_lt_Qlt. apply Qle_lt_trans with b.
        -- apply float_lt_false. apply Hmax. lia.
        -- apply float_lt_Qlt. exact Hbx.
    + rewrite <- Hlen. apply IH.
      * lia.
      * rewrite app_nth1 by lia. exact Hnth.
      * intros j Hj. rewrite Hlen in Hj.
        destruct (Nat.eq_dec j (length pre)) as [->|Hne].
        -- rewrite Hx. exact Hbx.
        -- rewrite app_nth1 by lia. apply Hmax. lia.
      * intros j Hj. rewrite app_nth1 by lia. apply Hfirst. exact Hj.
Qed.

(** [GetArgMax] on a non-empty vector: an index of the vector, no element
    exceeds the one it designates, and every earlier element is strictly
    smaller. *)
Lemma GetArgMax_spec (scores : list Q) :
  scores <> [] ->
  0 <= GetArgMax scores < Z.of_nat (length scores) /\
  (forall j, (j < length scores)%nat ->
     float_lt (at_index scores (GetArgMax scores)) (nth j scores (0 # 1)) = false) /\
  (forall j, (j < Z.to_nat (GetArgMax scores))%nat ->
     float_lt (nth j scores (0 # 1)) (at_index scores (GetArgMax scores)) = true).
Proof.
  destruct scores as [|x rest]; [congruence|]. intros _.
  pose proof (argmax_scan_spec rest [x] 0%nat x) as H.
  cbn zeta in H. simpl length in H. simpl app in H.
  destruct H as (Hr & Hmax & Hfirst).
  - lia.
  - reflexivity.
  - intros j Hj. assert (j = 0%nat) by lia. subst. apply float_lt_irrefl.
  - intros j Hj. lia.
  - unfold GetArgMax, at_index. rewrite Nat2Z.id. simpl length.
    split; [lia|]. split; assumption.
Qed.

Lemma FindLanguages_loop_length `{Collaborators} (self : LangIdImpl)
  (scores : list Q) :
  forall i, length (FindLanguages_loop self i scores) = length scores.
Proof. induction scores; intros; simpl; auto. Qed.

Lemma FindLanguages_loop_snd `{Collaborators} (self : LangIdImpl)
  (scores : list Q) :
  forall i, map snd (FindLanguages_loop self i scores) = scores.
Proof. induction scores; intros; simpl; f_equal; auto. Qed.

Lemma FindLanguages_loop_nth `{Collaborators} (self : LangIdImpl)
  (scores : list Q) :
  forall i k, (k < length scores)%nat ->
    nth_error (FindLanguages_loop self i scores) k
    = Some (GetLanguageForSoftmaxLabel self (i + Z.of_nat k),
            nth k scores (0 # 1)).
Proof.
  induction scores as [|s scores IH]; intros i k Hk; simpl in Hk; [lia|].
  destruct k as [|k]; simpl.
  - rewrite Z.add_0_r. reflexivity.
  - rewrite IH by lia. do 3 f_equal. lia.
Qed.

Lemma GetLanguageForSoftmaxLabel_in_range `{Collaborators} (self : LangIdImpl)
  (k : nat) :
  (k < length (languages_ self))%nat ->
  GetLanguageForSoftmaxLabel self (Z.of_nat k) = nth k (languages_ self) (lit "").
Proof.
  intros Hk. unfold GetLanguageForSoftmaxLabel.
  replace (0 <=? Z.of_nat k) with true by (symmetry; apply Z.leb_le; lia).
  replace (Z.of_nat k <? Z.of_nat (length (languages_ self))) with true
    by (symmetry; apply Z.ltb_lt; lia).
  simpl. rewrite Nat2Z.id. reflexivity.
Qed.

Lemma GetLanguageForSoftmaxLabel_out_of_range `{Collaborators}
  (self : LangIdImpl) (label : Z) :
  label < 0 \/ Z.of_nat (length (languages_ self)) <= label ->
  GetLanguageForSoftmaxLabel self label = default_language_ self.
Proof.
  intros Hl. unfold GetLanguageForSoftmaxLabel.
  destruct (0 <=? label) eqn:H0; simpl; [|reflexivity].
  destruct (label <? Z.of_nat (length (languages_ self))) eqn:H1; [|reflexivity].
  apply Z.leb_le in H0. apply Z.ltb_lt in H1. lia.
Qed.

Lemma FindLanguages_loop_combine `{Collaborators} (self : LangIdImpl) :
  forall (scores : list Q) (k : nat),
    (k + length scores = length (languages_ self))%nat ->
    FindLanguages_loop self (Z.of_nat k) scores
    = combine (skipn k (languages_ self)) scores.
Proof.
  induction scores as [|s scores IH]; intros k Hk; simpl in *.
  - destruct (skipn k (languages_ self)); reflexivity.
  - rewrite GetLanguageForSoftmaxLabel_in_range by lia.
    replace (Z.of_nat k + 1) with (Z.of_nat (S k)) by lia.
    rewrite IH by lia.
    assert (Hs : skipn k (languages_ self)
                 = nth k (languages_ self) (lit "") :: skipn (S k) (languages_ self)).
    { clear IH. generalize dependent k. generalize (languages_ self) as l.
      induction l as [|a l IHl]; intros k Hk; simpl in Hk; [lia|].
      destruct k as [|k]; [reflexivity|]. simpl. apply IHl. lia. }
    rewrite Hs. reflexivity.
Qed.

Lemma ScoreLanguages_invalid `{Collaborators} (self : LangIdImpl)
  (text : std_string) :
  is_valid self = false -> ScoreLanguages self text = [].
Proof. intros Hv. unfold ScoreLanguages. rewrite Hv. reflexivity. Qed.

(** What [ParseNetworkParams] needs to succeed, and what it stores. *)
Lemma ParseNetworkParams_true `{Collaborators} (self self' : LangIdImpl)
  (model_bytes : std_string) (context : TaskContext) :
  ParseNetworkParams self model_bytes context = (true, self') <->
  exists file bytes proto,
    GetInput context (lit "language-identifier-network") = [file] /\
    file <> [] /\
    GetBytesForInputFile model_bytes file = Some bytes /\
    ParseEmbeddingNetworkProto bytes = Some proto /\
    params_is_valid proto = true /\
    self' = set_network_params self (Some proto).
Proof.
  unfold ParseNetworkParams, GetInMemoryFileNameForTaskInput.
  split.
  - destruct (GetInput context (lit "language-identifier-network"))
      as [|file [|? ?]] eqn:Hin; simpl; try discriminate.
    destruct file as [|c file]; simpl; [discriminate|].
    destruct (GetBytesForInputFile model_bytes (c :: file)) as [bytes|] eqn:Hb;
      [|discriminate].
    destruct (ParseEmbeddingNetworkProto bytes) as [proto|] eqn:Hp;
      [|discriminate].
    destruct (params_is_valid proto) eqn:Hv; simpl; [|discriminate].
    intros Heq. injection Heq as <-.
    exists (c :: file), bytes, proto. repeat split; auto. discriminate.
  - intros (file & bytes & proto & Hin & Hne & Hb & Hp & Hv & ->).
    rewrite Hin. destruct file as [|c file]; [congruence|]. simpl.
    rewrite Hb, Hp, Hv. reflexivity.
Qed.

(** What [ParseListOfKnownLanguages] needs to succeed, and what it
    stores: the outer list holds exactly one record, and the record
    parses as a list of strings, of any length. *)
Lemma ParseListOfKnownLanguages_true `{Collaborators} (self self' : LangIdImpl)
  (model_bytes : std_string) (context : TaskContext) :
  ParseListOfKnownLanguages self model_bytes context = (true, self') <->
  exists file bytes record elements,
    GetInput context (lit "language-name-id-map") = [file] /\
    file <> [] /\
    GetBytesForInputFile model_bytes file = Some bytes /\
    ParseListOfStrings bytes = (true, [record]) /\
    ParseListOfStrings record = (true, elements) /\
    self' = set_languages self elements.
Proof.
  unfold ParseListOfKnownLanguages, GetInMemoryFileNameForTaskInput.
  split.
  - destruct (GetInput context (lit "language-name-id-map"))
      as [|file [|? ?]] eqn:Hin; simpl; try discriminate.
    destruct file as [|c file]; simpl; [discriminate|].
    destruct (GetBytesForInputFile model_bytes (c :: file)) as [bytes|] eqn:Hb;
      [|discriminate].
    destruct (ParseListOfStrings bytes) as [[|] records] eqn:Hp;
      [|discriminate].
    destruct records as [|record [|? ?]]; try discriminate.
    destruct (ParseListOfStrings record) as [[|] elements] eqn:Hr; simpl;
      [|discriminate].
    intros Heq. injection Heq as <-.
    exists (c :: file), bytes, record, elements. repeat split; auto. discriminate.
  - intros (file & bytes & record & elements & Hin & Hne & Hb & Hp & Hr & ->).
    rewrite Hin. destruct file as [|c file]; [congruence|]. simpl.
    rewrite Hb, Hp, Hr. reflexivity.
Qed.

(** The two parsing methods do not touch [valid_]. *)
Lemma ParseNetworkParams_valid `{Collaborators} (self : LangIdImpl)
  (model_bytes : std_string) (context : TaskContext) :
  valid_ (snd (ParseNetworkParams self model_bytes context)) = valid_ self.
Proof.
  unfold ParseNetworkParams.
  destruct (is_empty _); [reflexivity|].
  destruct (GetBytesForInputFile _ _); [|reflexivity].
  destruct (ParseEmbeddingNetworkProto _); [|reflexivity].
  destruct (negb _); reflexivity.
Qed.

Lemma ParseListOfKnownLanguages_valid `{Collaborators} (self : LangIdImpl)
  (model_bytes : std_string) (context : TaskContext) :
  valid_ (snd (ParseListOfKnownLanguages self model_bytes context)) = valid_ self.
Proof.
  unfold ParseListOfKnownLanguages.
  destruct (is_empty _); [reflexivity|].
  destruct (GetBytesForInputFile _ _); [|reflexivity].
  destruct (ParseListOfStrings _) as [[|] [|record [|? ?]]]; try reflexivity.
  destruct (ParseListOfStrings record) as [[|] ?]; reflexivity.
Qed.



(** When [Initialize] accepts, the object holds the parsed parameters
    as its network, and both passed their validity checks. *)
Lemma Initialize_valid_network `{Collaborators} (self : LangIdImpl)
  (mmap_handle : MmapHandle) :
  is_valid (Initialize self mmap_handle) = true ->
  exists proto,
    network_ (Initialize self mmap_handle) = Some proto /\
    network_params_ (Initialize self mmap_handle) = Some proto /\
    params_is_valid proto = true /\ network_is_valid proto = true.
Proof.
  unfold Initialize, is_valid.
  destruct (ok mmap_handle); simpl; [|discriminate].
  destruct (GetTaskSpec (to_stringpiece mmap_handle)) as [context|];
    [|discriminate].
  destruct (ParseNetworkParams (set_valid self false)
              (to_stringpiece mmap_handle) context) as [[|] self1] eqn:Hn;
    simpl.
  2:{ intros Hv.
      pose proof (ParseNetworkParams_valid (set_valid self false)
                    (to_stringpiece mmap_handle) context) as Hk.
      rewrite Hn in Hk. simpl in Hk. congruence. }
  apply ParseNetworkParams_true in Hn.
  destruct Hn as (nf & nb & proto & _ & _ & _ & _ & Hpv & ->).
  destruct (ParseListOfKnownLanguages
              (set_network_params (set_valid self false) (Some proto))
              (to_stringpiece mmap_handle) context) as [[|] self2] eqn:Hl;
    simpl.
  2:{ intros Hv.
      pose proof (ParseListOfKnownLanguages_valid
                    (set_network_params (set_valid self false) (Some proto))
                    (to_stringpiece mmap_handle) context) as Hk.
      rewrite Hl in Hk. simpl in Hk. congruence. }
  apply ParseListOfKnownLanguages_true in Hl.
  destruct Hl as (lf & lb & record & elements & _ & _ & _ & _ & _ & ->).
  simpl.
  destruct (network_is_valid proto) eqn:Hnv; simpl; [|discriminate].
  destruct (brain_Init (lang_id_brain_interface_ self) context) as [[|] brain];
    simpl; [|discriminate].
  intros _. exists proto. auto.
Qed.

(** A valid object holds a network: [ScoreLanguages] never dereferences
    a null [network_]. *)
Lemma valid_has_network `{Collaborators} (self : LangIdImpl) :
  reachable self -> is_valid self = true -> network_ self <> None.
Proof.
  induction 1 as [h|self q _ IH|self l _ IH]; simpl; auto.
  intros Hv. apply Initialize_valid_network in Hv.
  destruct Hv as (proto & Hnet & _). unfold New. rewrite Hnet. discriminate.
Qed.

(** The threshold is not read by [FindLanguages]. *)
Lemma FindLanguages_threshold `{Collaborators} (self : LangIdImpl)
  (threshold : Q) (text : std_string) :
  FindLanguages (SetProbabilityThreshold self threshold) text
  = FindLanguages self text.
Proof.
  unfold FindLanguages.
  change (ScoreLanguages (SetProbabilityThreshold self threshold) text)
    with (ScoreLanguages self text).
  generalize 0. induction (ScoreLanguages self text) as [|s scores IH];
    intros i; simpl; [reflexivity|].
  rewrite IH. reflexivity.
Qed.

(** The decision of [FindLanguage] on a non-empty score vector. *)
Lemma FindLanguage_nonempty `{Collaborators} (self : LangIdImpl)
  (text : std_string) :
  ScoreLanguages self text <> [] ->
  FindLanguage self text =
    let scores := ScoreLanguages self text in
    let label := GetArgMax scores in
    if float_lt (at_index scores label) (probability_threshold_ self)
    then default_language_ self
    else if label <? Z.of_nat (length (languages_ self))
         then nth (Z.to_nat label) (languages_ self) (lit "")
         else default_language_ self.
Proof.
  intros Hne. destruct (GetArgMax_spec _ Hne) as (Hr & _).
  unfold FindLanguage. cbn zeta.
  destruct (ScoreLanguages self text) as [|s scores]; [congruence|].
  destruct (float_lt _ _); [reflexivity|].
  unfold GetLanguageForSoftmaxLabel.
  replace (0 <=? GetArgMax (s :: scores)) with true
    by (symmetry; apply Z.leb_le; lia).
  reflexivity.
Qed.

(** C3 (as the code has it).  [FindLanguage] returns [default_language_]
    when there are no scores, in particular on an invalid object, and
    when the arg-max probability is strictly below the threshold.
    Otherwise it returns the language at the arg-max index when the
    language list has such an entry, and [default_language_] when the
    index lies beyond the list.  The arg-max index is the first position
    of a greatest score. *)
Theorem FindLanguage_decision `{Collaborators} (self : LangIdImpl)
  (text : std_string) :
  let scores := ScoreLanguages self text in
  let label := GetArgMax scores in
  (is_valid self = false -> scores = []) /\
  (scores = [] -> FindLanguage self text = default_language_ self) /\
  (scores <> [] ->
     0 <= label < Z.of_nat (length scores) /\
     (forall j, (j < length scores)%nat ->
        float_lt (at_index scores label) (nth j scores (0 # 1)) = false) /\
     (forall j, (j < Z.to_nat label)%nat ->
        float_lt (nth j scores (0 # 1)) (at_index scores label) = true) /\
     FindLanguage self text =
       if float_lt (at_index scores label) (probability_threshold_ self)
       then default_language_ self
       else if label <? Z.of_nat (length (languages_ self))
            then nth (Z.to_nat label) (languages_ self) (lit "")
            else default_language_ self).
Proof.
  cbn zeta. split; [apply ScoreLanguages_invalid|]. split.
  - unfold FindLanguage. intros ->. reflexivity.
  - intros Hne. destruct (GetArgMax_spec _ Hne) as (Hr & Hmax & Hfirst).
    repeat split; try tauto.
    apply FindLanguage_nonempty. exact Hne.
Qed.

(** C4 (as the code has it).  [FindLanguages] returns one pair for every
    score, in score order and whatever the threshold: the second
    components are the scores, the first component at position [i] is
    language [i] when the list has one and [default_language_] otherwise.
    When there are as many scores as languages the result pairs the
    language list with the scores; on an invalid object it is empty. *)
Theorem FindLanguages_pairs `{Collaborators} (self : LangIdImpl)
  (text : std_string) :
  let scores := ScoreLanguages self text in
  let result := FindLanguages self text in
  (is_valid self = false -> result = []) /\
  length result = length scores /\
  map snd result = scores /\
  (forall i, (i < length scores)%nat ->
     nth_error (map fst result) i
     = Some (if (i <? length (languages_ self))%nat
             then nth i (languages_ self) (lit "")
             else default_language_ self)) /\
  (length scores = length (languages_ self) ->
     result = combine (languages_ self) scores) /\
  (forall threshold,
     FindLanguages (SetProbabilityThreshold self threshold) text = result).
Proof.
  cbn zeta. unfold FindLanguages. repeat split.
  - intros Hv. rewrite ScoreLanguages_invalid by assumption. reflexivity.
  - apply FindLanguages_loop_length.
  - apply FindLanguages_loop_snd.
  - intros i Hi. rewrite nth_error_map.
    rewrite FindLanguages_loop_nth by assumption. simpl. f_equal.
    destruct (i <? length (languages_ self))%nat eqn:Hlt.
    + apply Nat.ltb_lt in Hlt. apply GetLanguageForSoftmaxLabel_in_range. lia.
    + apply Nat.ltb_ge in Hlt. apply GetLanguageForSoftmaxLabel_out_of_range. lia.
  - intros Hlen.
    apply (FindLanguages_loop_combine self (ScoreLanguages self text) 0%nat).
    simpl. exact Hlen.
  - intros threshold. apply FindLanguages_threshold.
Qed.

(** C9.  A softmax label outside [0, number of languages) is answered
    with [default_language_]: by the lookup itself, by [FindLanguages]
    at every score position beyond the language list, and by
    [FindLanguage] when the arg-max index lies beyond the list. *)
Theorem label_out_of_range_gives_default `{Collaborators} (self : LangIdImpl) :
  (forall label,
     label < 0 \/ Z.of_nat (length (languages_ self)) <= label ->
     GetLanguageForSoftmaxLabel self label = default_language_ self) /\
  (forall text i,
     (length (languages_ self) <= i < length (ScoreLanguages self text))%nat ->
     nth_error (FindLanguages self text) i
     = Some (default_language_ self, nth i (ScoreLanguages self text) (0 # 1))) /\
  (forall text,
     ScoreLanguages self text <> [] ->
     Z.of_nat (length (languages_ self)) <= GetArgMax (ScoreLanguages self text) ->
     FindLanguage self text = default_language_ self).
Proof.
  split; [apply GetLanguageForSoftmaxLabel_out_of_range|]. split.
  - intros text i [Hlo Hhi]. unfold FindLanguages.
    rewrite FindLanguages_loop_nth by assumption.
    rewrite GetLanguageForSoftmaxLabel_out_of_range by lia. reflexivity.
  - intros text Hne Hlabel.
    rewrite FindLanguage_nonempty by assumption. cbn zeta.
    destruct (float_lt _ _); [reflexivity|].
    replace (_ <? _) with false by (symmetry; apply Z.ltb_ge; lia).
    reflexivity.
Qed.


End LangIdProperties.

(* ================================================================== *)
(** ** The classifier on sample models *)
(* ================================================================== *)

Module LangIdExamples.

Import LangId LangIdProperties Sample.
Local Open Scope Z_scope.

#[local] Existing Instance Sample.collaborators.

Example two_outputs_one_language_loaded :
  let self := New two_outputs_one_language in
  is_valid self = true /\
  languages_ self = [lit "en"] /\
  option_map output_dimension (network_ self) = Some 2%nat /\
  ScoreLanguages self (lit "hi") = [1 # 3; 2 # 3] /\
  FindLanguage self (lit "hi") = default_language_ self /\
  FindLanguages self (lit "hi") = [(lit "en", 1 # 3); (lit "", 2 # 3)].
Proof. vm_compute. repeat split. Qed.


(** C3, refuted as stated: the scores are [1/3; 2/3], the arg-max
    probability 2/3 is not below the threshold 1/2, and yet no language
    code at the arg-max index 1 is returned, the list having one entry. *)
Lemma FindLanguage_label_beyond_list :
  ~ (let self := New two_outputs_one_language in
     let scores := ScoreLanguages self (lit "hi") in
     let label := GetArgMax scores in
     if match scores with [] => true | _ :: _ => false end
        || float_lt (at_index scores label) (probability_threshold_ self)
     then FindLanguage self (lit "hi") = default_language_ self
     else exists code,
         nth_error (languages_ self) (Z.to_nat label) = Some code /\
         FindLanguage self (lit "hi") = code).
Proof.
  vm_compute. intros (code & Hcode & _). discriminate.
Qed.

(** C4, refuted as stated: on a valid object with two languages and one
    score the result has one pair, not one for every language. *)
Lemma FindLanguages_fewer_pairs_than_languages :
  ~ (let self := New one_output_two_languages in
     is_valid self = true ->
     map fst (FindLanguages self (lit "hi")) = languages_ self).
Proof.
  cbn zeta. intros Hclaim.
  assert (Hv : is_valid (New one_output_two_languages) = true)
    by (vm_compute; reflexivity).
  specialize (Hclaim Hv). vm_compute in Hclaim. discriminate.
Qed.

(** Label 1 on a list of one language. *)
Lemma label_out_of_range_witness :
  GetLanguageForSoftmaxLabel (New two_outputs_one_language) 1
  = default_language_ (New two_outputs_one_language)
  /\ nth_error (FindLanguages (New two_outputs_one_language) (lit "hi")) 1
     = Some (default_language_ (New two_outputs_one_language),
             nth 1 (ScoreLanguages (New two_outputs_one_language) (lit "hi"))
               (0 # 1)).
Proof.
  split.
  - apply (proj1 (label_out_of_range_gives_default
                    (New two_outputs_one_language))).
    right. vm_compute. discriminate.
  - apply (proj1 (proj2 (label_out_of_range_gives_default
                           (New two_outputs_one_language)))).
    vm_compute. split; [apply le_n | apply le_n].
Defined.

End LangIdExamples.

(* ================================================================== *)
(** ** Properties of the token feature extractor *)
(* ================================================================== *)

Module ExtractorProperties.

Import Smartselect.
Local Open Scope Z_scope.
Local Open Scope exc_scope.

Lemma to_size_t_small (x : Z) : 0 <= x < 2 ^ 64 -> to_size_t x = x.
Proof. intros Hx. unfold to_size_t. apply Z.mod_small. exact Hx. Qed.

Lemma to_size_t_le (x : Z) : 0 <= x -> 0 <= to_size_t x <= x.
Proof.
  intros Hx. unfold to_size_t. split.
  - apply Z.mod_pos_bound. lia.
  - apply Z.mod_le; lia.
Qed.

Lemma to_int_small (x : Z) : is_int x -> to_int x = x.
Proof.
  unfold is_int, to_int. intros Hx.
  rewrite Z.mod_small by lia. lia.
Qed.

Lemma to_int_le (x : Z) : 0 <= x -> to_int x <= x.
Proof.
  intros Hx. unfold to_int.
  assert (H : (x + 2 ^ 31) mod 2 ^ 32 <= x + 2 ^ 31) by (apply Z.mod_le; lia).
  lia.
Qed.

Lemma size_nonneg (s : std_string) : 0 <= size s.
Proof. unfold size. lia. Qed.

Lemma size_app (s t : std_string) : size (s ++ t) = size s + size t.
Proof. unfold size. rewrite length_app. lia. Qed.

Lemma substr_in_range (s : std_string) (pos n : Z) :
  pos <= size s ->
  substr s pos n
  = Ret (firstn (Z.to_nat (Z.min n (size s - pos))) (skipn (Z.to_nat pos) s)).
Proof.
  intros Hpos. unfold substr.
  replace (size s <? pos) with false by (symmetry; apply Z.ltb_ge; lia).
  reflexivity.
Qed.

(** *** Codepoint sequences *)

Lemma chars_of_concat (fuel : nat) :
  forall s : std_string, (length s <= fuel)%nat -> concat (chars_of fuel s) = s.
Proof.
  induction fuel as [|fuel IH]; intros s Hs.
  - destruct s; [reflexivity|simpl in Hs; lia].
  - destruct s as [|c s]; [reflexivity|]. simpl in *.
    rewrite IH.
    + rewrite firstn_skipn. reflexivity.
    + rewrite length_skipn. lia.
Qed.

Lemma UTF8ToUnicodeText_concat (s : std_string) :
  concat (UTF8ToUnicodeText s) = s.
Proof. apply chars_of_concat. apply le_n. Qed.

Lemma chars_of_length (fuel : nat) :
  forall s : std_string, (length (chars_of fuel s) <= length s)%nat.
Proof.
  induction fuel as [|fuel IH]; intros s; [simpl; lia|].
  destruct s as [|c s]; simpl; [lia|].
  specialize (IH (skipn (OneCharLen c - 1) s)).
  rewrite length_skipn in IH. lia.
Qed.

Lemma chars_of_fuel (fuel1 : nat) :
  forall (fuel2 : nat) (s : std_string),
    (length s <= fuel1)%nat -> (length s <= fuel2)%nat ->
    chars_of fuel1 s = chars_of fuel2 s.
Proof.
  induction fuel1 as [|fuel1 IH]; intros fuel2 s H1 H2.
  - destruct s; [|simpl in H1; lia]. destruct fuel2; reflexivity.
  - destruct s as [|c s]; [destruct fuel2; reflexivity|].
    destruct fuel2 as [|fuel2]; [simpl in H2; lia|]. simpl in *.
    f_equal. apply IH; rewrite length_skipn; lia.
Qed.

Lemma OneCharLen_ascii (c : ascii) : byte_val c < 128 -> OneCharLen c = 1%nat.
Proof.
  intros Hc. unfold OneCharLen.
  assert (Hhi : byte_val c / 16 < 12).
  { apply Z.div_lt_upper_bound; lia. }
  apply Z.ltb_lt in Hhi. rewrite Hhi. reflexivity.
Qed.

Lemma chars_of_ascii (s : std_string) :
  ascii_only s ->
  forall fuel, (length s <= fuel)%nat -> chars_of fuel s = map (fun c => [c]) s.
Proof.
  induction 1 as [|c s Hc _ IH]; intros fuel Hf.
  - destruct fuel; reflexivity.
  - destruct fuel as [|fuel]; [simpl in Hf; lia|]. simpl in *.
    rewrite OneCharLen_ascii by assumption. simpl.
    rewrite IH by lia. reflexivity.
Qed.

Lemma UTF8ToUnicodeText_ascii (s : std_string) :
  ascii_only s -> UTF8ToUnicodeText s = map (fun c => [c]) s.
Proof. intros Hs. apply chars_of_ascii; [assumption|apply le_n]. Qed.

Lemma concat_singletons (s : std_string) : concat (map (fun c => [c]) s) = s.
Proof. induction s; simpl; congruence. Qed.

Lemma UTF8Substring_whole (t : UnicodeText) :
  UTF8Substring t 0 (length t) = concat t.
Proof.
  unfold UTF8Substring. rewrite Nat.sub_0_r. simpl. rewrite firstn_all.
  reflexivity.
Qed.

Lemma UTF8Substring_ascii (s : std_string) (first last : nat) :
  UTF8Substring (map (fun c => [c]) s) first last
  = firstn (last - first) (skipn first s).
Proof.
  unfold UTF8Substring. rewrite skipn_map, firstn_map.
  apply concat_singletons.
Qed.

(** Replacing codepoints by one-byte codepoints and decoding the bytes
    again gives the replaced sequence. *)
Lemma chars_of_replace (P : std_string -> bool) (z : ascii) :
  OneCharLen z = 1%nat ->
  forall (fuel : nat) (s : std_string),
    (length s <= fuel)%nat ->
    UTF8ToUnicodeText
      (concat (map (fun ch => if P ch then [z] else ch) (chars_of fuel s)))
    = map (fun ch => if P ch then [z] else ch) (chars_of fuel s).
Proof.
  intros Hz. induction fuel as [|fuel IH]; intros s Hs; [reflexivity|].
  destruct s as [|c s]; [reflexivity|]. simpl in Hs.
  cbn [chars_of map concat].
  set (k := (OneCharLen c - 1)%nat).
  assert (Hrest : (length (skipn k s) <= fuel)%nat)
    by (rewrite length_skipn; lia).
  specialize (IH (skipn k s) Hrest).
  set (rest := concat (map (fun ch => if P ch then [z] else ch)
                         (chars_of fuel (skipn k s)))) in *.
  unfold UTF8ToUnicodeText in *.
  destruct (P (c :: firstn k s)).
  - simpl. rewrite Hz. simpl. f_equal. exact IH.
  - simpl. fold k.
    destruct (Nat.le_gt_cases k (length s)) as [Hk|Hk].
    + rewrite firstn_app, length_firstn, Nat.min_l by assumption.
      rewrite Nat.sub_diag. simpl. rewrite app_nil_r.
      rewrite firstn_firstn, Nat.min_id. f_equal.
      rewrite skipn_app, length_firstn, Nat.min_l by assumption.
      rewrite Nat.sub_diag. simpl.
      rewrite skipn_all2 by (rewrite length_firstn; lia). simpl.
      rewrite <- IH. apply chars_of_fuel; [|apply le_n].
      rewrite length_app, length_firstn. lia.
    + assert (Hnil : skipn k s = []) by (apply skipn_all2; lia).
      assert (Hempty : chars_of fuel [] = []) by (destruct fuel; reflexivity).
      subst rest. rewrite Hnil, Hempty. simpl. rewrite app_nil_r.
      rewrite firstn_firstn, Nat.min_id.
      rewrite skipn_all2 by (rewrite length_firstn; lia).
      destruct (length (firstn k s)); reflexivity.
Qed.

Lemma MapDigitsToZeroUnicode_chars `{ICU} (token : std_string) :
  MapDigitsToZeroUnicode token
  = map (fun ch => if u_isdigit (codepoint ch) then [zero_char] else ch)
      (UTF8ToUnicodeText token).
Proof.
  unfold MapDigitsToZeroUnicode.
  apply (chars_of_replace (fun ch => u_isdigit (codepoint ch)) zero_char);
    [reflexivity|apply le_n].
Qed.

(** *** The cut points of the Unicode-aware extractor *)

Lemma cut_loop_spec (cnt : nat) :
  forall left_cut right_cut : nat,
    (left_cut <= right_cut)%nat ->
    ((right_cut - left_cut <= 2 * cnt)%nat ->
     fst (cut_loop cnt left_cut right_cut) = snd (cut_loop cnt left_cut right_cut))
    /\
    ((2 * cnt <= right_cut - left_cut)%nat ->
     cut_loop cnt left_cut right_cut
     = ((left_cut + cnt)%nat, (right_cut - cnt)%nat)).
Proof.
  induction cnt as [|cnt IH]; intros l r Hlr.
  - simpl. split; intros Hd; [lia|]. f_equal; lia.
  - cbn [cut_loop].
    destruct (l <? r)%nat eqn:Hlt.
    + apply Nat.ltb_lt in Hlt.
      destruct (S l <? r)%nat eqn:Hlt2.
      * apply Nat.ltb_lt in Hlt2.
        destruct (IH (S l) (pred r)) as [IH1 IH2]; [lia|].
        split; intros Hd.
        -- apply IH1. lia.
        -- rewrite IH2 by lia. f_equal; lia.
      * apply Nat.ltb_ge in Hlt2.
        destruct (IH (S l) r) as [IH1 IH2]; [lia|].
        split; intros Hd; [apply IH1; lia|lia].
    + rewrite Hlt. apply Nat.ltb_ge in Hlt.
      destruct (IH l r) as [IH1 IH2]; [lia|].
      split; intros Hd; [apply IH1; lia|lia].
Qed.


Section WithExtractor.

Context `{Farmhash} `{ICU}.
Variable self : TokenFeatureExtractor.

Lemma HashToken_returns (token : std_string) :
  to_size_t (num_buckets (options_ self)) <> 0 ->
  returns (HashToken self token).
Proof.
  intros Hn. unfold HashToken.
  destruct (Z.eqb_spec (to_size_t (num_buckets (options_ self))) 0);
    [contradiction|].
  eexists. reflexivity.
Qed.

Lemma HashToken_bucket (token : std_string) :
  0 < num_buckets (options_ self) ->
  is_int (num_buckets (options_ self)) ->
  returned (bucket self) (HashToken self token).
Proof.
  intros Hpos Hint. unfold HashToken, is_int in *.
  rewrite to_size_t_small by lia.
  destruct (Z.eqb_spec (num_buckets (options_ self)) 0); [exact I|].
  simpl. unfold bucket.
  pose proof (Z.mod_pos_bound (to_size_t (Fingerprint64 token))
                (num_buckets (options_ self)) Hpos) as Hb.
  rewrite to_int_small by (unfold is_int; lia). exact Hb.
Qed.

Lemma chargram_loop_bucket (feature_word : std_string) (order : Z) (cnt : nat) :
  0 < num_buckets (options_ self) ->
  is_int (num_buckets (options_ self)) ->
  forall i, returned (Forall (bucket self)) (chargram_loop self feature_word order i cnt).
Proof.
  intros Hpos Hint. induction cnt as [|cnt IH]; intros i; simpl.
  - constructor.
  - destruct (substr feature_word (to_size_t i) (to_size_t order)) as [g|];
      simpl; [|exact I].
    pose proof (HashToken_bucket g Hpos Hint) as Hh.
    destruct (HashToken self g) as [h|]; simpl in *; [|exact I].
    specialize (IH (i + 1)).
    destruct (chargram_loop self feature_word order (i + 1) cnt) as [r|];
      simpl in *; [|exact I].
    constructor; assumption.
Qed.

Lemma emit_loop_bucket (text : UnicodeText) (it_end : nat) (fuel : nat) :
  0 < num_buckets (options_ self) ->
  is_int (num_buckets (options_ self)) ->
  forall s e, returned (Forall (bucket self)) (emit_loop self fuel text s e it_end).
Proof.
  intros Hpos Hint. induction fuel as [|fuel IH]; intros s e; simpl.
  - constructor.
  - destruct (e <=? it_end)%nat; [|constructor].
    pose proof (HashToken_bucket (UTF8Substring text s e) Hpos Hint) as Hh.
    destruct (HashToken self (UTF8Substring text s e)) as [h|]; simpl in *;
      [|exact I].
    specialize (IH (S s) (S e)).
    destruct (emit_loop self fuel text (S s) (S e) it_end) as [r|];
      simpl in *; [|exact I].
    constructor; assumption.
Qed.

(** The emitting loop is given enough iterations: it stops by its own
    test, and more fuel changes nothing. *)
Lemma emit_loop_fuel (text : UnicodeText) (it_end : nat) (fuel1 : nat) :
  forall fuel2 s e,
    (S it_end - e <= fuel1)%nat -> (S it_end - e <= fuel2)%nat ->
    emit_loop self fuel1 text s e it_end = emit_loop self fuel2 text s e it_end.
Proof.
  induction fuel1 as [|fuel1 IH]; intros fuel2 s e H1 H2.
  - destruct fuel2 as [|fuel2]; [reflexivity|]. simpl.
    replace (e <=? it_end)%nat with false by (symmetry; apply Nat.leb_gt; lia).
    reflexivity.
  - destruct fuel2 as [|fuel2]; simpl.
    + replace (e <=? it_end)%nat with false by (symmetry; apply Nat.leb_gt; lia).
      reflexivity.
    + destruct (e <=? it_end)%nat eqn:He; [|reflexivity].
      apply Nat.leb_le in He.
      rewrite (IH fuel2 (S s) (S e)) by lia. reflexivity.
Qed.

Lemma chargrams_unicode_fuel (text : UnicodeText) (order : Z) (fuel : nat) :
  (S (S (length text)) <= fuel)%nat ->
  chargrams_unicode self text order
  = let it_start := if order =? 1 then 1%nat else 0%nat in
    let it_end := if order =? 1 then pred (length text) else length text in
    match advance_end (Z.to_nat order) it_start it_end with
    | None => Ret []
    | Some it_chargram_end =>
        emit_loop self fuel text it_start it_chargram_end it_end
    end.
Proof.
  intros Hfuel. unfold chargrams_unicode. cbn zeta.
  destruct (advance_end _ _ _) as [e|]; [|reflexivity].
  apply emit_loop_fuel; destruct (order =? 1); lia.
Qed.


Lemma for_each_order_returned (P : Z -> Prop) (body : Z -> Exc (list Z))
  (orders : list Z) :
  (forall k, returned (Forall P) (body k)) ->
  returned (Forall P) (for_each_order body orders).
Proof.
  intros Hbody. induction orders as [|k orders IH]; simpl.
  - constructor.
  - specialize (Hbody k). destruct (body k) as [r|]; simpl in *; [|exact I].
    destruct (for_each_order body orders) as [rs|]; simpl in *; [|exact I].
    apply Forall_app. split; assumption.
Qed.

Lemma ExtractCharactergramFeatures_bucket (token : Token) :
  0 < num_buckets (options_ self) ->
  is_int (num_buckets (options_ self)) ->
  returned (Forall (bucket self)) (ExtractCharactergramFeatures self token).
Proof.
  intros Hpos Hint.
  unfold ExtractCharactergramFeatures, ExtractCharactergramFeaturesUnicode,
    ExtractCharactergramFeaturesAscii.
  assert (Hpad : returned (Forall (bucket self)) (h <- HashToken self pad_token ;; Ret [h])).
  { pose proof (HashToken_bucket pad_token Hpos Hint) as Hh.
    destruct (HashToken self pad_token); simpl in *; [|exact I].
    constructor; [assumption|constructor]. }
  destruct (unicode_aware_features (options_ self)), (is_padding token);
    try exact Hpad.
  - apply for_each_order_returned. intros k. unfold chargrams_unicode.
    destruct (advance_end _ _ _); [|constructor].
    apply emit_loop_bucket; assumption.
  - destruct (feature_word_ascii self token) as [fw|]; simpl; [|exact I].
    apply for_each_order_returned. intros k. unfold chargrams_ascii.
    destruct (k =? 1); apply chargram_loop_bucket; assumption.
Qed.

Lemma chargram_loop_returns (feature_word : std_string) (order : Z) (cnt : nat) :
  to_size_t (num_buckets (options_ self)) <> 0 ->
  forall i, 0 <= i -> i + Z.of_nat cnt <= size feature_word + 1 ->
            returns (chargram_loop self feature_word order i cnt).
Proof.
  intros Hn. induction cnt as [|cnt IH]; intros i Hi Hcnt; simpl.
  - eexists. reflexivity.
  - rewrite substr_in_range by (pose proof (to_size_t_le _ Hi); lia). simpl.
    match goal with
    | |- context [HashToken self ?g] =>
        destruct (HashToken_returns g Hn) as [h ->]
    end. simpl.
    destruct (IH (i + 1)) as [r ->]; [lia|lia|]. simpl.
    eexists. reflexivity.
Qed.

Lemma chargrams_ascii_returns (feature_word : std_string) (order : Z) :
  to_size_t (num_buckets (options_ self)) <> 0 ->
  0 <= order ->
  returns (chargrams_ascii self feature_word order).
Proof.
  intros Hn Hk. unfold chargrams_ascii.
  pose proof (size_nonneg feature_word) as Hs.
  pose proof (to_int_le _ Hs) as Hi.
  destruct (order =? 1); apply chargram_loop_returns; auto; lia.
Qed.

Lemma emit_loop_returns (text : UnicodeText) (it_end fuel : nat) :
  to_size_t (num_buckets (options_ self)) <> 0 ->
  forall s e, returns (emit_loop self fuel text s e it_end).
Proof.
  intros Hn. induction fuel as [|fuel IH]; intros s e; simpl.
  - eexists. reflexivity.
  - destruct (e <=? it_end)%nat; [|eexists; reflexivity].
    destruct (HashToken_returns (UTF8Substring text s e) Hn) as [h ->]. simpl.
    destruct (IH (S s) (S e)) as [r ->]. simpl. eexists. reflexivity.
Qed.

Lemma for_each_order_returns (body : Z -> Exc (list Z)) (orders : list Z) :
  Forall (fun k => returns (body k)) orders ->
  returns (for_each_order body orders).
Proof.
  induction 1 as [|k orders [r Hr] _ [rs Hrs]]; simpl.
  - eexists. reflexivity.
  - rewrite Hr. simpl. rewrite Hrs. simpl. eexists. reflexivity.
Qed.

Lemma MapDigitsToZeroAscii_length (s : std_string) :
  length (MapDigitsToZeroAscii s) = length s.
Proof. unfold MapDigitsToZeroAscii. apply length_map. Qed.

Lemma to_size_t_negative (x : Z) :
  - 2 ^ 31 <= x < 0 -> to_size_t x = x + 2 ^ 64.
Proof.
  intros Hx. unfold to_size_t.
  rewrite <- (Z.mod_add x 1 (2 ^ 64)) by lia.
  apply Z.mod_small. lia.
Qed.

(** The test of the byte-oriented extractor on a word that fits in
    memory: it trims exactly the words longer than a non-negative
    [max_word_length]. *)
Lemma trim_test (max_length : Z) (word : std_string) :
  is_int max_length -> size word <= max_size ->
  (to_size_t max_length <? size word) = true ->
  0 <= max_length < size word.
Proof.
  unfold is_int, max_size. intros Hint Hsize Hlt. apply Z.ltb_lt in Hlt.
  destruct (Z_lt_le_dec max_length 0) as [Hneg|Hpos].
  - rewrite to_size_t_negative in Hlt by lia. lia.
  - rewrite to_size_t_small in Hlt by lia. lia.
Qed.

Lemma quot2_bounds (x : Z) : 0 <= x -> 0 <= Z.quot x 2 /\ 2 * Z.quot x 2 <= x.
Proof.
  intros Hx. rewrite Z.quot_div_nonneg by lia.
  pose proof (Z.mul_div_le x 2). pose proof (Z.div_pos x 2). lia.
Qed.

Lemma feature_word_ascii_returns (token : Token) :
  is_int (max_word_length (options_ self)) ->
  size (value token) <= max_size ->
  returns (feature_word_ascii self token).
Proof.
  intros Hint Hsize. unfold feature_word_ascii.
  set (word := if remap_digits (options_ self)
               then MapDigitsToZeroAscii (value token) else value token).
  assert (Hw : size word = size (value token)).
  { subst word. destruct (remap_digits (options_ self)); [|reflexivity].
    unfold size. rewrite MapDigitsToZeroAscii_length. reflexivity. }
  destruct (to_size_t (max_word_length (options_ self)) <? size word) eqn:Ht;
    [|eexists; reflexivity].
  apply trim_test in Ht; [|assumption|lia].
  destruct (quot2_bounds (max_word_length (options_ self))) as [Hq0 Hq1]; [lia|].
  rewrite substr_in_range by (pose proof (size_nonneg word); lia). simpl.
  rewrite substr_in_range.
  - simpl. eexists. reflexivity.
  - assert (Hpos : 0 <= size word - Z.quot (max_word_length (options_ self)) 2)
      by lia.
    pose proof (to_size_t_le _ Hpos). lia.
Qed.

Lemma ExtractCharactergramFeatures_returns (token : Token) :
  sane_options (options_ self) ->
  size (value token) <= max_size ->
  returns (ExtractCharactergramFeatures self token).
Proof.
  intros (Hnb & Hnz & Hmax & Horders) Hsize.
  assert (Hn : to_size_t (num_buckets (options_ self)) <> 0).
  { unfold is_int in Hnb.
    destruct (Z_lt_le_dec (num_buckets (options_ self)) 0).
    - rewrite to_size_t_negative by lia. lia.
    - rewrite to_size_t_small by lia. lia. }
  unfold ExtractCharactergramFeatures, ExtractCharactergramFeaturesUnicode,
    ExtractCharactergramFeaturesAscii.
  assert (Hpad : returns (h <- HashToken self pad_token ;; Ret [h])).
  { destruct (HashToken_returns pad_token Hn) as [h ->]. simpl.
    eexists. reflexivity. }
  destruct (unicode_aware_features (options_ self)), (is_padding token);
    try exact Hpad.
  - apply for_each_order_returns. apply Forall_forall. intros k _.
    unfold chargrams_unicode.
    destruct (advance_end _ _ _); [|eexists; reflexivity].
    apply emit_loop_returns; assumption.
  - destruct (feature_word_ascii_returns token Hmax Hsize) as [fw ->]. simpl.
    apply for_each_order_returns.
    eapply Forall_impl; [|exact Horders]. intros k Hk.
    apply chargrams_ascii_returns; assumption.
Qed.

(** [Extract] with both pointers set: the flag is true and the dense
    vector grows by the side features, whenever the sparse features are
    computed. *)
Lemma Extract_non_null (token : Token) (sparse0 : list Z) (dense0 : list Q) :
  Extract self token (Some sparse0) (Some dense0)
  = (sparse <- ExtractCharactergramFeatures self token ;;
     Ret (true, Some sparse,
          Some (dense0
                ++ (if extract_case_feature (options_ self)
                    then [case_feature self token] else [])
                ++ (if extract_selection_mask_feature (options_ self)
                    then [selection_mask_feature self token] else [])
                ++ map (regexp_feature token) (regex_patterns_ self)))).
Proof.
  unfold Extract.
  destruct (ExtractCharactergramFeatures self token) as [sparse|]; simpl;
    [|reflexivity].
  do 3 f_equal.
  destruct (extract_case_feature (options_ self)),
    (extract_selection_mask_feature (options_ self)),
    (regex_patterns_ self) as [|p ps];
    simpl; rewrite <- ?app_assoc, ?app_nil_r; reflexivity.
Qed.

(** The flag [Extract] returns is false exactly for a null pointer. *)
Lemma Extract_flag (token : Token) (sparse : option (list Z))
  (dense : option (list Q)) flag s d :
  Extract self token sparse dense = Ret (flag, s, d) ->
  (flag = false <-> sparse = None \/ dense = None).
Proof.
  destruct sparse as [sparse0|], dense as [dense0|].
  - rewrite Extract_non_null.
    destruct (ExtractCharactergramFeatures self token); simpl; [|discriminate].
    intros Heq. injection Heq as <- _ _.
    split; [discriminate|]. intros [Hn|Hn]; discriminate.
  - simpl. intros Heq. injection Heq as <- _ _. tauto.
  - simpl. intros Heq. injection Heq as <- _ _. tauto.
  - simpl. intros Heq. injection Heq as <- _ _. tauto.
Qed.

Lemma Extract_loop_flag (tokens : list Token) :
  forall sparse dense flag ss ds,
    Extract_loop self tokens sparse dense = Ret (flag, ss, ds) -> flag = true.
Proof.
  induction tokens as [|token tokens IH]; intros sparse dense flag ss ds.
  - simpl. intros Heq. injection Heq as <- _ _. reflexivity.
  - destruct sparse as [|s sparse], dense as [|d dense];
      try (simpl; intros Heq; injection Heq as <- _ _; reflexivity).
    cbn [Extract_loop]. rewrite Extract_non_null.
    destruct (ExtractCharactergramFeatures self token); simpl; [|discriminate].
    destruct (Extract_loop self tokens sparse dense) as [[[flag' ss'] ds']|] eqn:Hl;
      simpl; [|discriminate].
    intros Heq. injection Heq as <- _ _. eapply IH. exact Hl.
Qed.

Lemma Extract_loop_returns (tokens : list Token) :
  sane_options (options_ self) ->
  Forall (fun token => size (value token) <= max_size) tokens ->
  forall sparse dense,
    exists ss ds, Extract_loop self tokens sparse dense = Ret (true, ss, ds).
Proof.
  intros Hsane. induction 1 as [|token tokens Hsize _ IH]; intros sparse dense.
  - eexists _, _. reflexivity.
  - destruct sparse as [|s sparse], dense as [|d dense];
      try (eexists _, _; reflexivity).
    cbn [Extract_loop]. rewrite Extract_non_null.
    destruct (ExtractCharactergramFeatures_returns token Hsane Hsize) as [r ->].
    simpl. destruct (IH sparse dense) as (ss & ds & ->). simpl.
    eexists _, _. reflexivity.
Qed.


(** *** The two extractors on ASCII tokens *)

Lemma advance_end_spec (cnt : nat) :
  forall it_chargram_end it_end : nat,
    ((it_chargram_end + cnt < it_end)%nat ->
     advance_end cnt it_chargram_end it_end = Some (it_chargram_end + cnt)%nat)
    /\
    ((0 < cnt)%nat -> (it_end <= it_chargram_end + cnt)%nat ->
     advance_end cnt it_chargram_end it_end = None).
Proof.
  induction cnt as [|cnt IH]; intros e it_end; simpl.
  - split; [intros _; f_equal; lia|lia].
  - destruct (it_end <=? S e)%nat eqn:Hle.
    + apply Nat.leb_le in Hle. split; [lia|reflexivity].
    + apply Nat.leb_gt in Hle. destruct (IH (S e) it_end) as [IH1 IH2].
      split.
      * intros Hlt. rewrite IH1 by lia. f_equal. lia.
      * intros _ Hge. apply IH2; lia.
Qed.

(** On a string of one-byte codepoints the loop of the byte-oriented
    extractor and the emitting loop of the Unicode-aware extractor push
    the same hashes, as long as every window lies within the string. *)
Lemma chargram_loop_emit_loop (feature_word : std_string) (order it_end : nat)
  (cnt : nat) :
  (it_end <= length feature_word)%nat ->
  size feature_word < 2 ^ 31 ->
  forall (i fuel : nat),
    (cnt <= fuel)%nat ->
    (i + order + cnt = it_end + 1)%nat ->
    chargram_loop self feature_word (Z.of_nat order) (Z.of_nat i) cnt
    = emit_loop self fuel (map (fun c => [c]) feature_word) i (i + order) it_end.
Proof.
  intros Hend Hsize. unfold size in Hsize.
  induction cnt as [|cnt IH]; intros i fuel Hfuel Hcnt.
  - destruct fuel as [|fuel]; [reflexivity|]. simpl.
    replace (i + order <=? it_end)%nat with false
      by (symmetry; apply Nat.leb_gt; lia).
    reflexivity.
  - destruct fuel as [|fuel]; [lia|]. cbn [chargram_loop emit_loop].
    replace (i + order <=? it_end)%nat with true
      by (symmetry; apply Nat.leb_le; lia).
    rewrite !to_size_t_small by lia.
    rewrite substr_in_range by (unfold size; lia).
    rewrite UTF8Substring_ascii. unfold size.
    replace (Z.to_nat (Z.min (Z.of_nat order)
                         (Z.of_nat (length feature_word) - Z.of_nat i)))
      with (i + order - i)%nat by lia.
    rewrite Nat2Z.id. cbn [bind].
    destruct (HashToken self _) as [h|]; [|reflexivity]. cbn [bind].
    replace (Z.of_nat i + 1) with (Z.of_nat (S i)) by lia.
    rewrite (IH (S i) fuel) by lia.
    reflexivity.
Qed.

(** The n-grams of one order agree on a feature word of one-byte
    codepoints, unless the order is the length of the feature word, or
    the order is 1 and the feature word has a single inner character. *)
Lemma chargrams_agree (feature_word : std_string) (order : Z) :
  2 <= size feature_word < 2 ^ 31 ->
  0 <= order ->
  (order = 1 -> size feature_word <> 3) ->
  (order <> 1 -> order <> size feature_word) ->
  chargrams_ascii self feature_word order
  = chargrams_unicode self (map (fun c => [c]) feature_word) order.
Proof.
  intros Hsize Hk H1 Hn.
  unfold chargrams_ascii, chargrams_unicode. rewrite length_map.
  unfold size in *. set (n := length feature_word) in *.
  destruct (Z.eqb_spec order 1) as [->|Hne].
  - specialize (H1 eq_refl). clear Hn.
    destruct (Nat.eq_dec n 2) as [Hn2|Hn2].
    + rewrite Hn2. reflexivity.
    + destruct (advance_end_spec (Z.to_nat 1) 1 (pred n)) as [Hadv _].
      rewrite Hadv by lia.
      replace 1 with (Z.of_nat 1) at 1 2 by reflexivity.
      rewrite (chargram_loop_emit_loop feature_word 1 (pred n)
                 (Z.to_nat (Z.of_nat n - 1 - 1)) ltac:(fold n; lia)
                 ltac:(unfold size; fold n; lia) 1 (S (S n)))
        by lia.
      reflexivity.
  - specialize (Hn Hne). clear H1.
    rewrite to_int_small by (unfold is_int; lia).
    destruct (Z_lt_le_dec order (Z.of_nat n)) as [Hlt|Hge].
    + destruct (advance_end_spec (Z.to_nat order) 0 n) as [Hadv _].
      rewrite Hadv by lia.
      replace order with (Z.of_nat (Z.to_nat order)) at 1 by lia.
      replace 0 with (Z.of_nat 0) at 1 by reflexivity.
      rewrite (chargram_loop_emit_loop feature_word (Z.to_nat order) n
                 (Z.to_nat (Z.of_nat n - order + 1)) ltac:(fold n; lia)
                 ltac:(unfold size; fold n; lia) 0 (S (S n)))
        by lia.
      reflexivity.
    + destruct (advance_end_spec (Z.to_nat order) 0 n) as [_ Hadv].
      rewrite Hadv by lia.
      replace (Z.to_nat (Z.of_nat n - order + 1)) with 0%nat by lia.
      reflexivity.
Qed.

Lemma for_each_order_ext (body1 body2 : Z -> Exc (list Z)) (orders : list Z) :
  Forall (fun k => body1 k = body2 k) orders ->
  for_each_order body1 orders = for_each_order body2 orders.
Proof.
  induction 1 as [|k orders Hk _ IH]; simpl; [reflexivity|].
  rewrite Hk, IH. reflexivity.
Qed.

Lemma MapDigitsToZeroAscii_ascii (s : std_string) :
  ascii_only s -> ascii_only (MapDigitsToZeroAscii s).
Proof.
  unfold ascii_only, MapDigitsToZeroAscii. intros Hs.
  apply Forall_map. eapply Forall_impl; [|exact Hs]. intros c Hc. simpl.
  destruct (isdigit c); [vm_compute; reflexivity|exact Hc].
Qed.

(** On an ASCII token both digit remappings give the same word. *)
Lemma MapDigitsToZero_agree (s : std_string) :
  icu_digits_ascii -> ascii_only s ->
  MapDigitsToZeroUnicode s = map (fun c => [c]) (MapDigitsToZeroAscii s).
Proof.
  intros Hicu Hs. rewrite MapDigitsToZeroUnicode_chars.
  rewrite UTF8ToUnicodeText_ascii by assumption.
  unfold MapDigitsToZeroAscii. rewrite !map_map.
  apply map_ext_Forall. eapply Forall_impl; [|exact Hs]. intros c Hc. simpl.
  rewrite (Hicu c Hc). destruct (isdigit c); reflexivity.
Qed.

Lemma ascii_only_firstn (n : nat) (s : std_string) :
  ascii_only s -> ascii_only (firstn n s).
Proof.
  unfold ascii_only. revert s.
  induction n as [|n IH]; intros s Hs; [constructor|].
  destruct Hs; simpl; constructor; auto.
Qed.

Lemma ascii_only_skipn (n : nat) (s : std_string) :
  ascii_only s -> ascii_only (skipn n s).
Proof.
  unfold ascii_only. revert s.
  induction n as [|n IH]; intros s Hs; [exact Hs|].
  destruct Hs; simpl; [constructor|auto].
Qed.

(** The feature words agree on an ASCII token, unless [max_word_length]
    is negative, or odd and equal to the length of the token. *)
Lemma feature_words_agree (token : Token) :
  icu_digits_ascii -> ascii_only (value token) ->
  0 <= max_word_length (options_ self) < 2 ^ 31 ->
  size (value token) < 2 ^ 31 ->
  (size (value token) = max_word_length (options_ self) ->
   Z.even (max_word_length (options_ self)) = true) ->
  feature_word_ascii self token = Ret (feature_word_unicode self token)
  /\ ascii_only (feature_word_unicode self token)
  /\ 2 <= size (feature_word_unicode self token) <= size (value token) + 3.
Proof.
  intros Hicu Hascii Hmax Hsize Hodd.
  unfold feature_word_ascii, feature_word_unicode.
  set (word := if remap_digits (options_ self)
               then MapDigitsToZeroAscii (value token) else value token).
  assert (Hword : (if remap_digits (options_ self)
                   then MapDigitsToZeroUnicode (value token)
                   else UTF8ToUnicodeText (value token))
                  = map (fun c => [c]) word).
  { subst word. destruct (remap_digits (options_ self)).
    - apply MapDigitsToZero_agree; assumption.
    - apply UTF8ToUnicodeText_ascii; assumption. }
  assert (Hwa : ascii_only word).
  { subst word. destruct (remap_digits (options_ self)); [|assumption].
    apply MapDigitsToZeroAscii_ascii; assumption. }
  assert (Hlen : length word = length (value token)).
  { subst word. destruct (remap_digits (options_ self)); [|reflexivity].
    apply MapDigitsToZeroAscii_length. }
  rewrite Hword, length_map. clearbody word.
  unfold size in *. rewrite <- Hlen in *.
  set (m := max_word_length (options_ self)) in *.
  destruct (quot2_bounds m) as [Hq0 Hq1]; [lia|].
  assert (Hq2 : m <= 2 * Z.quot m 2 + 1).
  { rewrite Z.quot_div_nonneg by lia.
    pose proof (Z.mod_pos_bound m 2). pose proof (Z.div_mod m 2). lia. }
  assert (Heven : Z.even m = true -> m = 2 * Z.quot m 2).
  { intros He. rewrite Z.quot_div_nonneg by lia.
    pose proof (Z.div_mod m 2). rewrite Zmod_even, He in *. lia. }
  set (h := Z.to_nat (Z.quot m 2)) in *.
  assert (Hh : Z.of_nat h = Z.quot m 2) by (subst h; lia).
  rewrite to_size_t_small by lia.
  assert (Hparts : forall a b c : std_string,
             ascii_only a -> ascii_only b -> ascii_only c ->
             ascii_only (caret ++ a ++ b ++ c ++ dollar)).
  { intros a b c Ha Hb Hc. unfold ascii_only in *.
    repeat (apply Forall_app; split); try assumption;
      repeat constructor; vm_compute; reflexivity. }
  assert (Hnil : ascii_only []) by constructor.
  assert (Hsep : ascii_only separator)
    by (repeat constructor; vm_compute; reflexivity).
  destruct (cut_loop_spec h 0%nat (length word)) as [Hcut1 Hcut2]; [lia|].
  destruct (m <? Z.of_nat (length word)) eqn:Htrim.
  - (* the word is longer than max_word_length: both trim *)
    apply Z.ltb_lt in Htrim.
    rewrite Hcut2 by lia. cbn [Nat.add].
    replace (h =? length word - h)%nat with false
      by (symmetry; apply Nat.eqb_neq; lia).
    rewrite !to_size_t_small by lia.
    rewrite !substr_in_range by (unfold size; lia). cbn [bind].
    rewrite !UTF8Substring_ascii. unfold size.
    replace (Z.to_nat (Z.min (Z.quot m 2) (Z.of_nat (length word) - 0)))
      with (h - 0)%nat by lia.
    replace (Z.to_nat (Z.min (Z.quot m 2)
                         (Z.of_nat (length word)
                          - (Z.of_nat (length word) - Z.quot m 2))))
      with (length word - (length word - h))%nat by lia.
    replace (Z.to_nat (Z.of_nat (length word) - Z.quot m 2))
      with (length word - h)%nat by lia.
    change (Z.to_nat 0) with 0%nat.
    split; [reflexivity|]. split.
    + apply (Hparts (firstn (h - 0) (skipn 0 word)) separator
               (firstn (length word - (length word - h))
                  (skipn (length word - h) word))).
      * apply ascii_only_firstn. exact Hwa.
      * exact Hsep.
      * apply ascii_only_firstn. apply ascii_only_skipn. exact Hwa.
    + rewrite !length_app, !length_firstn, !length_skipn. simpl. lia.
  - (* the word is not longer: neither trims *)
    apply Z.ltb_ge in Htrim. cbn [bind].
    assert (Hcuts : fst (cut_loop h 0 (length word))
                    = snd (cut_loop h 0 (length word))).
    { destruct (Nat.le_gt_cases (length word) (2 * h)) as [Hle|Hgt].
      - apply Hcut1. lia.
      - (* 2h < length <= m <= 2h + 1: the length is m and m is odd *)
        exfalso.
        assert (Hm : Z.of_nat (length word) = m) by lia.
        specialize (Hodd Hm). specialize (Heven Hodd). lia. }
    destruct (cut_loop h 0 (length word)) as [left_cut right_cut].
    simpl in Hcuts. subst right_cut. rewrite Nat.eqb_refl.
    assert (Hwhole : UTF8Substring (map (fun c => [c]) word) 0 (length word)
                     = word).
    { rewrite UTF8Substring_ascii. rewrite Nat.sub_0_r. simpl.
      apply firstn_all. }
    rewrite !Hwhole.
    split; [reflexivity|]. split.
    + specialize (Hparts word [] []). simpl in Hparts.
      unfold caret, dollar in *. simpl.
      specialize (Hparts Hwa Hnil Hnil).
      unfold lit in Hparts. simpl in Hparts. exact Hparts.
    + rewrite !length_app. simpl. lia.
Qed.


(** The feature word of the byte-oriented extractor is at most three
    bytes longer than the token. *)
Lemma feature_word_ascii_size (token : Token) (feature_word : std_string) :
  is_int (max_word_length (options_ self)) ->
  size (value token) <= max_size ->
  feature_word_ascii self token = Ret feature_word ->
  2 <= size feature_word <= size (value token) + 3.
Proof.
  intros Hint Hsize. unfold feature_word_ascii.
  set (word := if remap_digits (options_ self)
               then MapDigitsToZeroAscii (value token) else value token).
  assert (Hw : size word = size (value token)).
  { subst word. destruct (remap_digits (options_ self)); [|reflexivity].
    unfold size. rewrite MapDigitsToZeroAscii_length. reflexivity. }
  rewrite <- Hw in *. clearbody word.
  pose proof (size_nonneg word) as Hs.
  destruct (to_size_t (max_word_length (options_ self)) <? size word) eqn:Ht.
  - apply trim_test in Ht; [|assumption|lia].
    destruct (quot2_bounds (max_word_length (options_ self))) as [Hq0 Hq1];
      [lia|].
    rewrite substr_in_range by lia. cbn [bind].
    assert (Hpos : 0 <= size word - Z.quot (max_word_length (options_ self)) 2)
      by lia.
    pose proof (to_size_t_le _ Hpos) as Hle.
    rewrite substr_in_range by lia. cbn [bind].
    pose proof (to_size_t_le _ Hq0) as Hq2.
    intros Heq. injection Heq as <-.
    unfold size in *. cbn [length]. rewrite !length_app. cbn [length].
    rewrite !length_app, !length_firstn, length_skipn.
    change (length dollar) with 1%nat. lia.
  - intros Heq. injection Heq as <-.
    unfold size in *. cbn [length]. rewrite !length_app.
    change (length dollar) with 1%nat. lia.
Qed.

(** Within these bounds every loop bound of the byte-oriented extractor
    is a value of [int]. *)
Lemma loop_bounds_defined (token : Token) (feature_word : std_string) :
  is_int (max_word_length (options_ self)) ->
  size (value token) + 3 < 2 ^ 31 ->
  Forall (fun k => is_int k /\ size (value token) + 4 - k < 2 ^ 31)
    (chargram_orders (options_ self)) ->
  feature_word_ascii self token = Ret feature_word ->
  Forall (int_bound_defined feature_word) (chargram_orders (options_ self)).
Proof.
  intros Hint Hsize Horders Hfw.
  pose proof (size_nonneg (value token)) as Hs.
  pose proof (feature_word_ascii_size token feature_word Hint
                ltac:(unfold max_size; lia) Hfw) as Hfs.
  eapply Forall_impl; [|exact Horders]. intros k [Hk Hlow].
  unfold int_bound_defined.
  rewrite to_int_small by (unfold is_int; lia).
  unfold is_int in *. repeat split; lia.
Qed.

End WithExtractor.

(** C5 (as the code has it).  On a freshly constructed extractor and
    non-null outputs, [Extract] appends to the dense vector, in this
    order: the case feature when enabled, +1 when the token starts with
    an uppercase character and -1 otherwise, the character being the
    first codepoint under [u_isupper] in Unicode-aware mode and the first
    byte under [isupper] in byte-oriented mode; the selection-mask
    feature when enabled, +1 inside the span and otherwise -1 in
    Unicode-aware mode and 0 in byte-oriented mode; and one value for
    every configured regular expression, +1 when it compiled and is found
    in the token, -1 when it is not found or did not compile.
    Construction keeps every pattern, compiled or not. *)
Theorem Extract_dense_features `{Farmhash} `{ICU}
  (options : TokenFeatureExtractorOptions) (token : Token)
  (sparse0 : list Z) (dense0 : list Q) :
  let self := New options in
  let starts_upper :=
    if unicode_aware_features options then
      match UTF8ToUnicodeText (value token) with
      | first :: _ => u_isupper (codepoint first)
      | [] => false
      end
    else
      match value token with
      | first :: _ => isupper first
      | [] => false
      end in
  let case := if starts_upper then f_one else f_minus_one in
  let mask :=
    if is_in_span token then f_one
    else if unicode_aware_features options then f_minus_one else f_zero in
  let regexp pattern :=
    match RegexPattern_compile pattern with
    | Some compiled =>
        if RegexMatcher_find compiled (value token) then f_one else f_minus_one
    | None => f_minus_one
    end in
  length (regex_patterns_ self) = length (regexp_features options) /\
  match ExtractCharactergramFeatures self token with
  | Ret sparse =>
      Extract self token (Some sparse0) (Some dense0)
      = Ret (true, Some sparse,
             Some (dense0
                   ++ (if extract_case_feature options then [case] else [])
                   ++ (if extract_selection_mask_feature options
                       then [mask] else [])
                   ++ map regexp (regexp_features options)))
  | Fail f => Extract self token (Some sparse0) (Some dense0) = Fail f
  end.
Proof.
  cbn zeta. split; [apply length_map|].
  rewrite Extract_non_null.
  destruct (ExtractCharactergramFeatures (New options) token) as [sparse|];
    simpl; [|reflexivity].
  assert (Hcase : case_feature (New options) token
                  = if (if unicode_aware_features options then
                          match UTF8ToUnicodeText (value token) with
                          | first :: _ => u_isupper (codepoint first)
                          | [] => false
                          end
                        else
                          match value token with
                          | first :: _ => isupper first
                          | [] => false
                          end)
                    then f_one else f_minus_one).
  { unfold case_feature. simpl.
    destruct (unicode_aware_features options).
    - destruct (UTF8ToUnicodeText (value token)) as [|first ?]; [reflexivity|].
      destruct (u_isupper (codepoint first)); reflexivity.
    - destruct (value token) as [|first ?]; [reflexivity|].
      destruct (isupper first); reflexivity. }
  rewrite Hcase. rewrite map_map. reflexivity.
Qed.


(** C10.  With a positive [num_buckets], every sparse id [Extract]
    produces is a bucket index: the ids of a token's n-grams and the
    single id of a padding token alike.  Under options that make no call
    fail, [Extract] does produce such ids. *)
Theorem sparse_ids_in_buckets `{Farmhash} `{ICU} (self : TokenFeatureExtractor)
  (token : Token) (sparse0 : list Z) (dense0 : list Q) :
  0 < num_buckets (options_ self) ->
  is_int (num_buckets (options_ self)) ->
  (forall flag sparse dense,
     Extract self token (Some sparse0) (Some dense0)
     = Ret (flag, Some sparse, dense) ->
     Forall (bucket self) sparse) /\
  (is_padding token = true ->
   exists id, ExtractCharactergramFeatures self token = Ret [id]
              /\ bucket self id) /\
  (is_int (max_word_length (options_ self)) ->
   Forall (fun k => 0 <= k) (chargram_orders (options_ self)) ->
   size (value token) <= max_size ->
   exists sparse dense,
     Extract self token (Some sparse0) (Some dense0)
     = Ret (true, Some sparse, Some dense)
     /\ Forall (bucket self) sparse).
Proof.
  intros Hpos Hint.
  pose proof (ExtractCharactergramFeatures_bucket self token Hpos Hint) as Hb.
  split; [|split].
  - intros flag sparse dense. rewrite Extract_non_null.
    destruct (ExtractCharactergramFeatures self token) as [r|]; simpl;
      [|discriminate].
    intros Heq. injection Heq as _ <- _. exact Hb.
  - intros Hpad. revert Hb.
    unfold ExtractCharactergramFeatures, ExtractCharactergramFeaturesUnicode,
      ExtractCharactergramFeaturesAscii.
    rewrite Hpad.
    pose proof (HashToken_bucket self pad_token Hpos Hint) as Hh.
    assert (Hn : to_size_t (num_buckets (options_ self)) <> 0)
      by (unfold is_int in Hint; rewrite to_size_t_small; lia).
    destruct (HashToken_returns self pad_token Hn) as [h Hr].
    rewrite Hr in *. simpl in *.
    destruct (unicode_aware_features (options_ self)); intros _; eauto.
  - intros Hmax Horders Hsize.
    assert (Hsane : sane_options (options_ self)).
    { unfold sane_options. split; [exact Hint|]. split; [lia|].
      split; assumption. }
    rewrite Extract_non_null.
    destruct (ExtractCharactergramFeatures_returns self token Hsane Hsize)
      as [r Hr].
    rewrite Hr in *. simpl in *. eexists _, _. split; [reflexivity|exact Hb].
Qed.


(** C6 (as the code has it).  For a token that is not padding and is
    strictly shorter than [max_word_length], the n-grams are generated
    over "^" + word + "$", where the word is the token, with every digit
    replaced by '0' when digit remapping is enabled.  The byte-oriented
    extractor counts the length in bytes and replaces the bytes '0' to
    '9' (48 to 57) and no other, so the bytes of a digit outside ASCII
    stay; the Unicode-aware extractor counts the length in codepoints
    and replaces the codepoints of [u_isdigit].  The token "abc123" gives
    "^abc000$" in both. *)
Theorem short_token_feature_word `{Farmhash} `{ICU} (self : TokenFeatureExtractor)
  (token : Token) :
  is_int (max_word_length (options_ self)) ->
  is_padding token = false ->
  (size (value token) < max_word_length (options_ self) ->
   let word :=
     if remap_digits (options_ self)
     then map (fun c => if (48 <=? byte_val c) && (byte_val c <=? 57)
                        then "0"%char else c) (value token)
     else value token in
   feature_word_ascii self token = Ret (lit "^" ++ word ++ lit "$") /\
   ExtractCharactergramFeaturesAscii self token
   = for_each_order (chargrams_ascii self (lit "^" ++ word ++ lit "$"))
       (chargram_orders (options_ self)))
  /\
  (Z.of_nat (length (UTF8ToUnicodeText (value token)))
   < max_word_length (options_ self) ->
   let word :=
     if remap_digits (options_ self)
     then concat (map (fun ch => if u_isdigit (codepoint ch) then lit "0" else ch)
                    (UTF8ToUnicodeText (value token)))
     else value token in
   feature_word_unicode self token = lit "^" ++ word ++ lit "$" /\
   ExtractCharactergramFeaturesUnicode self token
   = for_each_order
       (chargrams_unicode self (UTF8ToUnicodeText (lit "^" ++ word ++ lit "$")))
       (chargram_orders (options_ self)))
  /\
  (remap_digits (options_ self) = true ->
   value token = lit "abc123" ->
   6 < max_word_length (options_ self) ->
   feature_word_ascii self token = Ret (lit "^abc000$") /\
   (icu_digits_ascii -> feature_word_unicode self token = lit "^abc000$")).
Proof.
  intros Hint Hpad.
  assert (Hbytes :
            size (value token) < max_word_length (options_ self) ->
            feature_word_ascii self token
            = Ret (lit "^"
                   ++ (if remap_digits (options_ self)
                       then map (fun c =>
                                   if (48 <=? byte_val c) && (byte_val c <=? 57)
                                   then "0"%char else c) (value token)
                       else value token)
                   ++ lit "$")).
  { intros Hshort. unfold feature_word_ascii.
    change (map (fun c => if (48 <=? byte_val c) && (byte_val c <=? 57)
                          then "0"%char else c) (value token))
      with (MapDigitsToZeroAscii (value token)).
    set (word := if remap_digits (options_ self)
                 then MapDigitsToZeroAscii (value token) else value token).
    assert (Hw : size word = size (value token)).
    { subst word. destruct (remap_digits (options_ self)); [|reflexivity].
      unfold size. rewrite MapDigitsToZeroAscii_length. reflexivity. }
    pose proof (size_nonneg (value token)) as Hs. unfold is_int in Hint.
    rewrite to_size_t_small by lia.
    replace (max_word_length (options_ self) <? size word) with false
      by (symmetry; apply Z.ltb_ge; lia).
    reflexivity. }
  assert (Hpoints :
            Z.of_nat (length (UTF8ToUnicodeText (value token)))
            < max_word_length (options_ self) ->
            feature_word_unicode self token
            = lit "^"
              ++ (if remap_digits (options_ self)
                  then concat (map (fun ch => if u_isdigit (codepoint ch)
                                              then lit "0" else ch)
                                 (UTF8ToUnicodeText (value token)))
                  else value token)
              ++ lit "$").
  { intros Hshort. unfold feature_word_unicode.
    set (word := if remap_digits (options_ self)
                 then MapDigitsToZeroUnicode (value token)
                 else UTF8ToUnicodeText (value token)).
    assert (Hlen : length word = length (UTF8ToUnicodeText (value token))).
    { subst word. destruct (remap_digits (options_ self)); [|reflexivity].
      rewrite MapDigitsToZeroUnicode_chars. apply length_map. }
    assert (Hconcat : concat word
                      = if remap_digits (options_ self)
                        then concat (map (fun ch => if u_isdigit (codepoint ch)
                                                    then lit "0" else ch)
                                       (UTF8ToUnicodeText (value token)))
                        else value token).
    { subst word. destruct (remap_digits (options_ self)).
      - rewrite MapDigitsToZeroUnicode_chars. reflexivity.
      - apply UTF8ToUnicodeText_concat. }
    destruct (quot2_bounds (max_word_length (options_ self))) as [Hq0 Hq1];
      [lia|].
    assert (Hq2 : max_word_length (options_ self)
                  <= 2 * Z.quot (max_word_length (options_ self)) 2 + 1).
    { rewrite Z.quot_div_nonneg by lia.
      pose proof (Z.mod_pos_bound (max_word_length (options_ self)) 2).
      pose proof (Z.div_mod (max_word_length (options_ self)) 2). lia. }
    destruct (cut_loop_spec
                (Z.to_nat (Z.quot (max_word_length (options_ self)) 2))
                0%nat (length word)) as [Hcut _]; [lia|].
    destruct (cut_loop _ 0%nat (length word)) as [left_cut right_cut].
    simpl in Hcut.
    rewrite Hcut by lia. rewrite Nat.eqb_refl.
    rewrite UTF8Substring_whole, Hconcat. reflexivity. }
  split; [|split].
  - intros Hshort. cbn zeta. split; [exact (Hbytes Hshort)|].
    unfold ExtractCharactergramFeaturesAscii.
    rewrite Hpad, (Hbytes Hshort). reflexivity.
  - intros Hshort. cbn zeta. split; [exact (Hpoints Hshort)|].
    unfold ExtractCharactergramFeaturesUnicode.
    rewrite Hpad, (Hpoints Hshort). reflexivity.
  - intros Hremap Hvalue Hmax. split.
    + rewrite Hbytes by (rewrite Hvalue; exact Hmax).
      rewrite Hremap, Hvalue. reflexivity.
    + intros Hicu.
      rewrite Hpoints by (rewrite Hvalue; exact Hmax).
      rewrite Hremap, Hvalue.
      assert (Hd : forall c, In c (lit "abc123") ->
                     u_isdigit (codepoint [c]) = isdigit c).
      { intros c Hc. apply (Hicu c).
        simpl in Hc. decompose [or] Hc; subst; try contradiction;
          vm_compute; reflexivity. }
      change (UTF8ToUnicodeText (lit "abc123"))
        with (map (fun c => [c]) (lit "abc123")).
      rewrite map_map.
      rewrite (map_ext_in _ (fun c => if isdigit c then lit "0" else [c]))
        by (intros c Hc; rewrite (Hd c Hc); reflexivity).
      reflexivity.
Qed.


(** Where the two extractors do agree.  On an ASCII-only token, with
    ICU's digits being the ASCII digits on ASCII, both return the same
    sequence of ids provided that [max_word_length] is not negative, the
    token is not exactly as long as an odd [max_word_length], no order
    is negative, no order other than 1 equals the length of the feature
    word, and order 1 is not asked of a feature word of length 3 (a
    token of one character). *)
Theorem ascii_and_unicode_agree `{Farmhash} `{ICU} (self : TokenFeatureExtractor)
  (token : Token) :
  icu_digits_ascii ->
  ascii_only (value token) ->
  0 <= max_word_length (options_ self) < 2 ^ 31 ->
  size (value token) + 3 < 2 ^ 31 ->
  (size (value token) = max_word_length (options_ self) ->
   Z.even (max_word_length (options_ self)) = true) ->
  Forall (fun k =>
            0 <= k
            /\ (k = 1 -> size (feature_word_unicode self token) <> 3)
            /\ (k <> 1 -> k <> size (feature_word_unicode self token)))
    (chargram_orders (options_ self)) ->
  ExtractCharactergramFeaturesAscii self token
  = ExtractCharactergramFeaturesUnicode self token.
Proof.
  intros Hicu Hascii Hmax Hsize Hodd Horders.
  unfold ExtractCharactergramFeaturesAscii, ExtractCharactergramFeaturesUnicode.
  destruct (is_padding token); [reflexivity|].
  destruct (feature_words_agree self token Hicu Hascii Hmax) as (Hfw & Hfa & Hfs);
    [lia|exact Hodd|].
  rewrite Hfw. cbn [bind].
  rewrite UTF8ToUnicodeText_ascii by assumption.
  apply for_each_order_ext.
  eapply Forall_impl; [|exact Horders].
  intros k (Hk & H1 & Hn). apply chargrams_agree; auto. lia.
Qed.

(** C1, on the code.  For every fingerprint and every ICU, with orders
    {1} and a token of the single character "a", the byte-oriented
    extractor returns the id of the unigram "a" and the Unicode-aware
    extractor returns nothing: its test [it_chargram_end >= it_end]
    discards the n-gram that ends exactly at the end of the range.  The
    same test drops the n-gram that spans the whole feature word (order
    3 on "^a$"). *)
Theorem unicode_drops_last_complete_chargram `{Farmhash} `{ICU} :
  let token := Sample.token (lit "a") in
  ascii_only (value token) /\
  (let self := New (Sample.options false [1] 20) in
   ExtractCharactergramFeaturesUnicode self token = Ret []
   /\ exists id, HashToken self (lit "a") = Ret id
                 /\ ExtractCharactergramFeaturesAscii self token = Ret [id]) /\
  (let self := New (Sample.options false [3] 20) in
   ExtractCharactergramFeaturesUnicode self token = Ret []
   /\ exists id, HashToken self (lit "^a$") = Ret id
                 /\ ExtractCharactergramFeaturesAscii self token = Ret [id]).
Proof.
  cbn zeta. split; [repeat constructor; vm_compute; reflexivity|].
  assert (Hfw : forall orders,
             feature_word_unicode (New (Sample.options false orders 20))
               (Sample.token (lit "a")) = lit "^a$"
             \/ feature_word_unicode (New (Sample.options false orders 20))
                  (Sample.token (lit "a")) = lit "^0$").
  { intros orders. unfold feature_word_unicode.
    cbn [options_ New remap_digits Sample.options max_word_length value
         Sample.token].
    rewrite MapDigitsToZeroUnicode_chars.
    change (UTF8ToUnicodeText (lit "a")) with [lit "a"].
    cbn [map].
    destruct (u_isdigit (codepoint (lit "a"))); [right|left];
      vm_compute; reflexivity. }
  assert (Hhash : forall orders g,
             returns (HashToken (New (Sample.options false orders 20)) g)).
  { intros orders g. apply HashToken_returns. vm_compute. discriminate. }
  split.
  - split.
    + unfold ExtractCharactergramFeaturesUnicode.
      cbn [is_padding Sample.token].
      destruct (Hfw [1]) as [-> | ->]; vm_compute; reflexivity.
    + destruct (Hhash [1] (lit "a")) as [id Hid]. exists id.
      split; [exact Hid|].
      cbv - [HashToken] in Hid |- *. rewrite Hid. reflexivity.
  - split.
    + unfold ExtractCharactergramFeaturesUnicode.
      cbn [is_padding Sample.token].
      destruct (Hfw [3]) as [-> | ->]; vm_compute; reflexivity.
    + destruct (Hhash [3] (lit "^a$")) as [id Hid]. exists id.
      split; [exact Hid|].
      cbv - [HashToken] in Hid |- *. rewrite Hid. reflexivity.
Qed.


End ExtractorProperties.

(* ================================================================== *)
(** ** The extractor on sample tokens *)
(* ================================================================== *)

Module ExtractorExamples.

Import Smartselect ExtractorProperties Sample.
Local Open Scope Z_scope.

#[local] Existing Instance Sample.fingerprint.
#[local] Existing Instance Sample.icu.

Lemma sample_icu_digits_ascii : icu_digits_ascii.
Proof.
  intros c Hc. unfold isdigit. simpl.
  replace (1632 <=? byte_val c) with false by (symmetry; apply Z.leb_gt; lia).
  simpl. apply orb_false_r.
Qed.

Lemma sample_options_sane (unicode_aware : bool) :
  sane_options (options_ (New (options unicode_aware [1; 2] 20))).
Proof.
  unfold sane_options, is_int. simpl.
  repeat split; try lia; try discriminate. repeat constructor; lia.
Qed.

(** The trimming of the two extractors differs on a token whose length is
    an odd [max_word_length]. *)
Example trimming_differs_at_odd_max_word_length :
  let self := New (options false [2] 5) in
  feature_word_ascii self (token (lit "abcde")) = Ret (lit "^abcde$") /\
  feature_word_unicode self (token (lit "abcde"))
  = lit "^ab" ++ separator ++ lit "de$".
Proof. vm_compute. split; reflexivity. Qed.

(** In Unicode-aware mode the capital letter U+00C9 gives the case
    feature +1. *)
Example case_feature_unicode_aware :
  exists sparse,
    Extract (New (options true [1] 20)) (token E_acute) (Some []) (Some [])
    = Ret (true, Some sparse, Some [f_one; f_minus_one; f_minus_one; f_minus_one]).
Proof. vm_compute. eexists. reflexivity. Qed.

(** C5, refuted as stated: in byte-oriented mode the token of bytes C3 89, whose
    first codepoint U+00C9 is uppercase, gets the case feature -1. *)
Lemma case_feature_of_non_ascii_capital :
  ~ (let self := New (options false [1] 20) in
     let token := token E_acute in
     forall sparse dense,
       Extract self token (Some []) (Some []) = Ret (true, Some sparse, Some dense) ->
       nth 0 dense f_zero
       = match UTF8ToUnicodeText (value token) with
         | first :: _ => if u_isupper (codepoint first) then f_one else f_minus_one
         | [] => f_minus_one
         end).
Proof.
  cbn zeta. intros Hclaim.
  pose proof (Hclaim _ _ ltac:(vm_compute; reflexivity)) as Hcase.
  vm_compute in Hcase. discriminate.
Qed.

(** Outside well-formed options: the order -1 on the token "a", in
    both modes. *)
Example Extract_negative_order_outcome :
  Extract (New (options false [-1] 20)) (token (lit "a")) (Some []) (Some [])
  = Fail out_of_range /\
  Extract_tokens (New (options false [-1] 20)) [token (lit "a")] (Some []) (Some [])
  = Fail out_of_range /\
  Extract (New (options true [-1] 20)) (token (lit "a")) (Some []) (Some [])
  = Ret (true, Some [7; 7; 7; 7],
         Some [f_minus_one; f_minus_one; f_minus_one; f_minus_one]).
Proof. vm_compute. repeat split. Qed.


(** C6, refuted as stated, in the byte-oriented extractor.  A token of
    three codepoints, so shorter than a [max_word_length] of 5, is
    trimmed because it has six bytes; and the digit U+0663 is not
    replaced by '0'. *)
Lemma byte_extractor_counts_bytes_and_ascii_digits :
  ~ (let self := New (options false [1] 5) in
     let token := token (E_acute ++ E_acute ++ E_acute) in
     Z.of_nat (length (UTF8ToUnicodeText (value token)))
     < max_word_length (options_ self) ->
     feature_word_ascii self token = Ret (lit "^" ++ value token ++ lit "$"))
  /\
  ~ (let self := New (options false [1] 20) in
     let token := token Arabic_three in
     u_isdigit (codepoint Arabic_three) = true ->
     feature_word_ascii self token = Ret (lit "^0$")).
Proof.
  cbn zeta. split.
  - intros Hclaim.
    specialize (Hclaim ltac:(vm_compute; reflexivity)).
    vm_compute in Hclaim. discriminate.
  - intros Hclaim.
    specialize (Hclaim ltac:(vm_compute; reflexivity)).
    vm_compute in Hclaim. discriminate.
Qed.

(** A lead byte without its continuation byte is a sequence cut short. *)
Example truncated_sequence_is_not_complete :
  complete_sequences [ascii_of_nat 195] = false /\
  complete_sequences E_acute = true /\
  complete_sequences (lit "abc") = true.
Proof. vm_compute. repeat split. Qed.

(** What the two extractors make of these two tokens. *)
Example feature_words_of_non_ascii_tokens :
  feature_word_ascii (New (options false [1] 5))
    (token (E_acute ++ E_acute ++ E_acute))
  = Ret (lit "^" ++ E_acute ++ separator ++ E_acute ++ lit "$") /\
  feature_word_unicode (New (options true [1] 5))
    (token (E_acute ++ E_acute ++ E_acute))
  = lit "^" ++ E_acute ++ E_acute ++ E_acute ++ lit "$" /\
  feature_word_ascii (New (options false [1] 20)) (token Arabic_three)
  = Ret (lit "^" ++ Arabic_three ++ lit "$") /\
  feature_word_unicode (New (options true [1] 20)) (token Arabic_three)
  = lit "^0$".
Proof. vm_compute. repeat split. Qed.

(** The token "abc123" with digit remapping, in both extractors. *)
Lemma short_token_feature_word_witness :
  feature_word_ascii (New (options false [1] 20)) (token (lit "abc123"))
  = Ret (lit "^abc000$")
  /\ feature_word_unicode (New (options true [1] 20)) (token (lit "abc123"))
     = lit "^abc000$".
Proof.
  split.
  - apply (proj1 (proj2 (proj2 (short_token_feature_word
                                  (New (options false [1] 20))
                                  (token (lit "abc123"))
                                  ltac:(int_range) eq_refl))
                    eq_refl eq_refl eq_refl)).
  - apply (proj2 (proj2 (proj2 (short_token_feature_word
                                  (New (options true [1] 20))
                                  (token (lit "abc123"))
                                  ltac:(int_range) eq_refl))
                    eq_refl eq_refl eq_refl)).
    exact sample_icu_digits_ascii.
Defined.

(** The ids of "ab" for orders 1 and 2 with 1000 buckets. *)
Lemma sparse_ids_in_buckets_witness :
  Extract (New (options false [1; 2] 20)) (token (lit "ab")) (Some []) (Some [])
  = Ret (true, Some [314; 315; 738; 832; 801],
         Some [f_minus_one; f_zero; f_one; f_minus_one])
  /\ Forall (bucket (New (options false [1; 2] 20))) [314; 315; 738; 832; 801].
Proof.
  split; [vm_compute; reflexivity|].
  apply (proj1 (sparse_ids_in_buckets
                  (New (options false [1; 2] 20)) (token (lit "ab")) [] []
                  ltac:(vm_compute; reflexivity)
                  ltac:(int_range))
           true _ (Some [f_minus_one; f_zero; f_one; f_minus_one])).
  vm_compute. reflexivity.
Defined.

(** Both extractors on "hello7" for orders 1, 2 and 3. *)
Lemma ascii_and_unicode_agree_witness :
  ExtractCharactergramFeaturesAscii (New (options false [1; 2; 3] 20))
    (token (lit "hello7"))
  = ExtractCharactergramFeaturesUnicode (New (options false [1; 2; 3] 20))
      (token (lit "hello7")).
Proof.
  apply ascii_and_unicode_agree.
  - exact sample_icu_digits_ascii.
  - repeat constructor; vm_compute; reflexivity.
  - vm_compute. split; [discriminate|reflexivity].
  - vm_compute. reflexivity.
  - vm_compute. discriminate.
  - repeat constructor; vm_compute; try discriminate;
      intros; discriminate.
Defined.

End ExtractorExamples.

(* ================================================================== *)
(** ** More on the token feature extractor *)
(* ================================================================== *)

Module ExtractorCoverage.

Import Smartselect ExtractorProperties.
Local Open Scope Z_scope.
Local Open Scope exc_scope.

Lemma singletons_of_positions (b : ascii) (w : std_string) :
  map (fun j => firstn 1 (skipn j (w ++ [b]))) (seq 0 (length w))
  = map (fun c => [c]) w.
Proof.
  induction w as [|c w IH]; [reflexivity|].
  simpl length. rewrite <- cons_seq. cbn [map].
  rewrite <- seq_shift, map_map. apply (f_equal (cons [c])). exact IH.
Qed.

Lemma codepoints_of_positions (b : std_string) (w : UnicodeText) :
  map (fun j => concat (firstn 1 (skipn j (w ++ [b])))) (seq 0 (length w)) = w.
Proof.
  induction w as [|c w IH]; [reflexivity|].
  simpl length. rewrite <- cons_seq. cbn [map].
  change (concat (firstn 1 (skipn 0 ((c :: w) ++ [b])))) with (c ++ []).
  rewrite app_nil_r.
  rewrite <- seq_shift, map_map. apply (f_equal (cons c)). exact IH.
Qed.

Section WithExtractor.

Context `{Farmhash} `{ICU}.
Variable self : TokenFeatureExtractor.

Lemma hash_all_length (grams : list std_string) :
  forall ids, hash_all self grams = Ret ids -> length ids = length grams.
Proof.
  induction grams as [|g grams IH]; intros ids; simpl.
  - intros Heq. injection Heq as <-. reflexivity.
  - destruct (HashToken self g) as [h|]; simpl; [|discriminate].
    destruct (hash_all self grams) as [r|]; simpl; [|discriminate].
    intros Heq. injection Heq as <-. simpl. f_equal. apply IH. reflexivity.
Qed.

(** The loop of the byte-oriented extractor hashes the windows at the
    positions it visits, as long as every window lies in the string. *)
Lemma chargram_loop_windows (feature_word : std_string) (k : nat) (cnt : nat) :
  size feature_word < 2 ^ 64 ->
  forall i : nat,
    (cnt = 0 \/ i + cnt + k <= S (length feature_word))%nat ->
    chargram_loop self feature_word (Z.of_nat k) (Z.of_nat i) cnt
    = hash_all self (map (fun j => firstn k (skipn j feature_word)) (seq i cnt)).
Proof.
  intros Hsize. unfold size in Hsize.
  induction cnt as [|cnt IH]; intros i Hcnt; [reflexivity|].
  destruct Hcnt as [Hcnt|Hcnt]; [discriminate|].
  cbn [chargram_loop seq map hash_all].
  rewrite !to_size_t_small by lia.
  rewrite substr_in_range by (unfold size; lia). unfold size.
  replace (Z.to_nat (Z.min (Z.of_nat k)
                       (Z.of_nat (length feature_word) - Z.of_nat i)))
    with k by lia.
  rewrite Nat2Z.id. cbn [bind].
  destruct (HashToken self _) as [h|]; [|reflexivity]. cbn [bind].
  replace (Z.of_nat i + 1) with (Z.of_nat (S i)) by lia.
  rewrite IH by lia. reflexivity.
Qed.

(** The emitting loop of the Unicode-aware extractor hashes the bytes of
    the windows at the positions it visits. *)
Lemma emit_loop_windows (text : UnicodeText) (k it_end : nat) (cnt : nat) :
  forall (s fuel : nat),
    (cnt <= fuel)%nat ->
    (s + k + cnt = it_end + 1)%nat ->
    emit_loop self fuel text s (s + k) it_end
    = hash_all self (map (fun j => concat (firstn k (skipn j text))) (seq s cnt)).
Proof.
  induction cnt as [|cnt IH]; intros s fuel Hfuel Hcnt.
  - destruct fuel as [|fuel]; [reflexivity|]. simpl.
    replace (s + k <=? it_end)%nat with false
      by (symmetry; apply Nat.leb_gt; lia).
    reflexivity.
  - destruct fuel as [|fuel]; [lia|]. cbn [emit_loop seq map hash_all].
    replace (s + k <=? it_end)%nat with true
      by (symmetry; apply Nat.leb_le; lia).
    unfold UTF8Substring at 1.
    replace (s + k - s)%nat with k by lia.
    destruct (HashToken self _) as [h|]; [|reflexivity]. cbn [bind].
    change (S (s + k)) with (S s + k)%nat.
    rewrite (IH (S s) fuel) by lia. reflexivity.
Qed.

End WithExtractor.

(** What the byte-oriented extractor hashes for one order.  For order 1
    it is every byte between the first and the last byte of the feature
    word, so neither sentinel; for any other non-negative order it is
    every window of that width over the whole feature word, left to
    right (none when the order exceeds the length, one empty window per
    position and one more for order 0). *)
Theorem chargrams_ascii_are_windows `{Farmhash} `{ICU}
  (self : TokenFeatureExtractor) :
  (forall (a b : ascii) (w : std_string),
     size w + 2 < 2 ^ 64 ->
     chargrams_ascii self (a :: w ++ [b]) 1
     = hash_all self (map (fun c => [c]) w)) /\
  (forall (feature_word : std_string) (order : Z),
     size feature_word < 2 ^ 31 -> 0 <= order -> order <> 1 ->
     chargrams_ascii self feature_word order
     = hash_all self (windows (Z.to_nat order) feature_word)).
Proof.
  split.
  - intros a b w Hsize. unfold chargrams_ascii, size in *. simpl Z.eqb. cbv iota.
    assert (Hlen : length (a :: w ++ [b]) = S (S (length w)))
      by (simpl; rewrite length_app; simpl; lia).
    rewrite Hlen.
    replace (Z.to_nat (Z.of_nat (S (S (length w))) - 1 - 1)) with (length w)
      by lia.
    change 1 with (Z.of_nat 1).
    rewrite (chargram_loop_windows self (a :: w ++ [b]) 1 (length w))
      by (unfold size; rewrite ?Hlen; lia).
    rewrite <- seq_shift, map_map. cbn [skipn].
    rewrite singletons_of_positions. reflexivity.
  - intros fw k Hsize Hk Hne. unfold chargrams_ascii.
    destruct (Z.eqb_spec k 1) as [|_]; [contradiction|].
    pose proof (size_nonneg fw) as Hs.
    rewrite to_int_small by (unfold is_int; lia). unfold size in *.
    replace k with (Z.of_nat (Z.to_nat k)) at 1 by lia.
    change 0 with (Z.of_nat 0).
    rewrite (chargram_loop_windows self fw (Z.to_nat k)
               (Z.to_nat (Z.of_nat (length fw) - k + 1)))
      by (unfold size; lia).
    unfold windows. f_equal. f_equal. f_equal. lia.
Qed.

(** What the Unicode-aware extractor hashes for one order, on a text of
    at least two codepoints.  For order 1 it is every codepoint between
    the first and the last, but nothing at all when there is only one
    such codepoint.  For any other order it is every window of that many
    codepoints, but nothing when the order is the length of the text or
    more; a negative order behaves as order 0. *)
Theorem chargrams_unicode_are_windows `{Farmhash} `{ICU}
  (self : TokenFeatureExtractor) :
  (forall (a b : std_string) (w : UnicodeText),
     chargrams_unicode self (a :: w ++ [b]) 1
     = if (2 <=? length w)%nat then hash_all self w else Ret []) /\
  (forall (text : UnicodeText) (order : Z),
     (2 <= length text)%nat -> order <> 1 ->
     chargrams_unicode self text order
     = if (Z.to_nat order <? length text)%nat
       then hash_all self (map (@concat ascii) (windows (Z.to_nat order) text))
       else Ret []).
Proof.
  split.
  - intros a b w. unfold chargrams_unicode. simpl Z.eqb. cbv iota.
    assert (Hlen : length (a :: w ++ [b]) = S (S (length w)))
      by (simpl; rewrite length_app; simpl; lia).
    rewrite Hlen. cbn [pred].
    destruct (advance_end_spec (Z.to_nat 1) 1 (S (length w))) as [Hsome Hnone].
    destruct (2 <=? length w)%nat eqn:Hw.
    + apply Nat.leb_le in Hw. rewrite Hsome by lia.
      change (1 + Z.to_nat 1)%nat with (1 + 1)%nat.
      rewrite (emit_loop_windows self (a :: w ++ [b]) 1 (S (length w))
                 (length w) 1) by lia.
      rewrite <- seq_shift, map_map. cbn [skipn].
      rewrite codepoints_of_positions. reflexivity.
    + apply Nat.leb_gt in Hw. rewrite Hnone by (simpl; lia). reflexivity.
  - intros text k Hlen Hne. unfold chargrams_unicode.
    destruct (Z.eqb_spec k 1) as [|_]; [contradiction|].
    destruct (advance_end_spec (Z.to_nat k) 0 (length text)) as [Hsome Hnone].
    destruct (Z.to_nat k <? length text)%nat eqn:Hk.
    + apply Nat.ltb_lt in Hk. rewrite Hsome by lia.
      rewrite (emit_loop_windows self text (Z.to_nat k) (length text)
                 (S (length text) - Z.to_nat k) 0) by lia.
      unfold windows. rewrite map_map. reflexivity.
    + apply Nat.ltb_ge in Hk. rewrite Hnone by lia. reflexivity.
Qed.

Section Counting.

Context `{Farmhash} `{ICU}.
Variable self : TokenFeatureExtractor.

Lemma chargram_loop_length (feature_word : std_string) (order : Z) (cnt : nat) :
  forall i ids,
    chargram_loop self feature_word order i cnt = Ret ids -> length ids = cnt.
Proof.
  induction cnt as [|cnt IH]; intros i ids; simpl.
  - intros Heq. injection Heq as <-. reflexivity.
  - destruct (substr _ _ _) as [g|]; simpl; [|discriminate].
    destruct (HashToken self g) as [h|]; simpl; [|discriminate].
    destruct (chargram_loop self feature_word order (i + 1) cnt) as [r|] eqn:Hr;
      simpl; [|discriminate].
    intros Heq. injection Heq as <-. simpl. f_equal. eapply IH. exact Hr.
Qed.

Lemma emit_loop_length (text : UnicodeText) (it_end fuel : nat) :
  forall s e ids,
    emit_loop self fuel text s e it_end = Ret ids ->
    (length ids <= S it_end - e)%nat.
Proof.
  induction fuel as [|fuel IH]; intros s e ids; cbn [emit_loop].
  - intros Heq. injection Heq as <-. cbn [length]. lia.
  - destruct (e <=? it_end)%nat eqn:He.
    + apply Nat.leb_le in He.
      destruct (HashToken self _) as [h|]; cbn [bind]; [|discriminate].
      destruct (emit_loop self fuel text (S s) (S e) it_end) as [r|] eqn:Hr;
        cbn [bind]; [|discriminate].
      intros Heq. injection Heq as <-. cbn [length].
      specialize (IH _ _ _ Hr). lia.
    + intros Heq. injection Heq as <-. cbn [length]. lia.
Qed.

Lemma advance_end_result (cnt : nat) :
  forall e it_end e',
    advance_end cnt e it_end = Some e' -> e' = (e + cnt)%nat.
Proof.
  induction cnt as [|cnt IH]; intros e it_end e'; simpl.
  - intros Heq. injection Heq as <-. lia.
  - destruct (it_end <=? S e)%nat; [discriminate|].
    intros Heq. apply IH in Heq. lia.
Qed.

Lemma for_each_order_length (body : Z -> Exc (list Z)) (bound : nat)
  (orders : list Z) :
  Forall (fun k => forall r, body k = Ret r -> (length r <= bound)%nat) orders ->
  forall ids, for_each_order body orders = Ret ids ->
              (length ids <= length orders * bound)%nat.
Proof.
  induction 1 as [|k orders Hk _ IH]; intros ids; simpl.
  - intros Heq. injection Heq as <-. simpl. lia.
  - destruct (body k) as [r|] eqn:Hr; simpl; [|discriminate].
    destruct (for_each_order body orders) as [rs|]; simpl; [|discriminate].
    intros Heq. injection Heq as <-. rewrite length_app.
    specialize (Hk r eq_refl). specialize (IH rs eq_refl). lia.
Qed.

Lemma chargrams_ascii_count (feature_word : std_string) (order : Z) :
  1 <= order ->
  forall ids, chargrams_ascii self feature_word order = Ret ids ->
              (length ids <= length feature_word)%nat.
Proof.
  intros Hk ids. unfold chargrams_ascii.
  pose proof (size_nonneg feature_word) as Hs.
  pose proof (to_int_le _ Hs) as Hi. unfold size in *.
  destruct (order =? 1); intros Hr; apply chargram_loop_length in Hr; lia.
Qed.

Lemma chargrams_unicode_count (text : UnicodeText) (order : Z) :
  1 <= order ->
  forall ids, chargrams_unicode self text order = Ret ids ->
              (length ids <= length text)%nat.
Proof.
  intros Hk ids. unfold chargrams_unicode.
  destruct (advance_end _ _ _) as [e|] eqn:He.
  - apply advance_end_result in He. intros Hr.
    apply emit_loop_length in Hr.
    destruct (order =? 1); lia.
  - intros Heq. injection Heq as <-. simpl. lia.
Qed.

End Counting.

(** The bound the source reserves room for.  For a token that is not
    padding and orders that are all at least 1, the number of sparse ids
    is at most the number of orders times the length in bytes of the
    feature word, in both extractors. *)
Theorem chargram_count_within_reserve `{Farmhash} `{ICU}
  (self : TokenFeatureExtractor) (token : Token) (ids : list Z) :
  is_padding token = false ->
  Forall (fun k => 1 <= k) (chargram_orders (options_ self)) ->
  (forall feature_word,
     feature_word_ascii self token = Ret feature_word ->
     ExtractCharactergramFeaturesAscii self token = Ret ids ->
     (length ids
      <= length (chargram_orders (options_ self)) * length feature_word)%nat) /\
  (ExtractCharactergramFeaturesUnicode self token = Ret ids ->
   (length ids
    <= length (chargram_orders (options_ self))
       * length (feature_word_unicode self token))%nat).
Proof.
  intros Hpad Horders. split.
  - intros fw Hfw. unfold ExtractCharactergramFeaturesAscii.
    rewrite Hpad, Hfw. cbn [bind].
    apply for_each_order_length.
    eapply Forall_impl; [|exact Horders]. intros k Hk r.
    apply chargrams_ascii_count. exact Hk.
  - unfold ExtractCharactergramFeaturesUnicode. rewrite Hpad.
    apply for_each_order_length.
    eapply Forall_impl; [|exact Horders]. intros k Hk r Hr.
    apply chargrams_unicode_count in Hr; [|exact Hk].
    pose proof (chars_of_length
                  (length (feature_word_unicode self token))
                  (feature_word_unicode self token)) as Hchars.
    unfold UTF8ToUnicodeText in Hr. lia.
Qed.

(** Word trimming in the byte-oriented extractor.  A word longer than a
    non-negative [max_word_length] is replaced by its first
    [max_word_length / 2] bytes, the separator byte 1 and its last
    [max_word_length / 2] bytes, between the sentinels: the feature word
    then has [2 * (max_word_length / 2) + 3] bytes, whatever the length
    of the token. *)
Theorem long_word_is_trimmed_ascii `{Farmhash} `{ICU}
  (self : TokenFeatureExtractor) (token : Token) :
  is_int (max_word_length (options_ self)) ->
  size (value token) <= max_size ->
  0 <= max_word_length (options_ self) < size (value token) ->
  let word :=
    if remap_digits (options_ self)
    then MapDigitsToZeroAscii (value token) else value token in
  let half := Z.to_nat (Z.quot (max_word_length (options_ self)) 2) in
  feature_word_ascii self token
  = Ret (lit "^" ++ firstn half word ++ separator
         ++ skipn (length word - half) word ++ lit "$")
  /\ size (lit "^" ++ firstn half word ++ separator
           ++ skipn (length word - half) word ++ lit "$")
     = 2 * Z.quot (max_word_length (options_ self)) 2 + 3.
Proof.
  intros Hint Hsize Hlong. cbn zeta. unfold feature_word_ascii.
  set (word := if remap_digits (options_ self)
               then MapDigitsToZeroAscii (value token) else value token).
  assert (Hw : length word = length (value token)).
  { subst word. destruct (remap_digits (options_ self)); [|reflexivity].
    apply MapDigitsToZeroAscii_length. }
  unfold size, max_size in *. rewrite <- Hw in Hlong, Hsize. clearbody word.
  set (m := max_word_length (options_ self)) in *.
  destruct (quot2_bounds m) as [Hq0 Hq1]; [lia|].
  unfold is_int in Hint.
  rewrite !to_size_t_small by lia.
  replace (m <? Z.of_nat (length word)) with true
    by (symmetry; apply Z.ltb_lt; lia).
  rewrite !substr_in_range by (unfold size; lia). cbn [bind]. unfold size.
  replace (Z.to_nat (Z.min (Z.quot m 2) (Z.of_nat (length word) - 0)))
    with (Z.to_nat (Z.quot m 2)) by lia.
  replace (Z.to_nat (Z.min (Z.quot m 2)
                       (Z.of_nat (length word)
                        - (Z.of_nat (length word) - Z.quot m 2))))
    with (Z.to_nat (Z.quot m 2)) by lia.
  replace (Z.to_nat (Z.of_nat (length word) - Z.quot m 2))
    with (length word - Z.to_nat (Z.quot m 2))%nat by lia.
  change (Z.to_nat 0) with 0%nat. cbn [skipn].
  assert (Hsuffix : firstn (Z.to_nat (Z.quot m 2))
                      (skipn (length word - Z.to_nat (Z.quot m 2)) word)
                    = skipn (length word - Z.to_nat (Z.quot m 2)) word).
  { apply firstn_all2. rewrite length_skipn. lia. }
  rewrite Hsuffix. split; [reflexivity|].
  rewrite !length_app, length_firstn, length_skipn.
  change (length (lit "^")) with 1%nat. change (length separator) with 1%nat.
  change (length (lit "$")) with 1%nat. lia.
Qed.

(** Word trimming in the Unicode-aware extractor, with [half] the number
    of iterations of the cut loop ([max_word_length / 2], none when that
    is negative).  A word of more than [2 * half] codepoints is replaced
    by its first [half] codepoints, the separator and its last [half]
    codepoints; a word of at most [2 * half] codepoints is kept whole.
    So a word of exactly [max_word_length] codepoints is trimmed when
    [max_word_length] is odd, and with [max_word_length] below 2 every
    non-empty word becomes the separator alone. *)
Theorem long_word_is_trimmed_unicode `{Farmhash} `{ICU}
  (self : TokenFeatureExtractor) (token : Token) :
  let word :=
    if remap_digits (options_ self)
    then MapDigitsToZeroUnicode (value token)
    else UTF8ToUnicodeText (value token) in
  let half := Z.to_nat (Z.quot (max_word_length (options_ self)) 2) in
  ((2 * half < length word)%nat ->
   feature_word_unicode self token
   = lit "^" ++ concat (firstn half word) ++ separator
     ++ concat (skipn (length word - half) word) ++ lit "$") /\
  ((length word <= 2 * half)%nat ->
   feature_word_unicode self token = lit "^" ++ concat word ++ lit "$").
Proof.
  cbn zeta. unfold feature_word_unicode.
  set (word := if remap_digits (options_ self)
               then MapDigitsToZeroUnicode (value token)
               else UTF8ToUnicodeText (value token)).
  set (half := Z.to_nat (Z.quot (max_word_length (options_ self)) 2)).
  destruct (cut_loop_spec half 0%nat (length word)) as [Hmeet Hcut]; [lia|].
  split; intros Hlen.
  - rewrite Hcut by lia. cbn [Nat.add].
    replace (half =? length word - half)%nat with false
      by (symmetry; apply Nat.eqb_neq; lia).
    unfold UTF8Substring. rewrite Nat.sub_0_r. cbn [skipn].
    replace (length word - (length word - half))%nat with half by lia.
    rewrite (firstn_all2 (n := half) (skipn (length word - half) word))
      by (rewrite length_skipn; lia).
    reflexivity.
  - specialize (Hmeet ltac:(lia)).
    destruct (cut_loop half 0 (length word)) as [left_cut right_cut].
    simpl in Hmeet. subst right_cut. rewrite Nat.eqb_refl.
    rewrite UTF8Substring_whole. reflexivity.
Qed.


Section Overrun.

Context `{Farmhash} `{ICU}.
Variable self : TokenFeatureExtractor.

(** A loop of the byte-oriented extractor that is asked to go beyond the
    position just past the end raises there. *)
Lemma chargram_loop_overrun (feature_word : std_string) (order : Z) (cnt : nat) :
  to_size_t (num_buckets (options_ self)) <> 0 ->
  size feature_word + 1 < 2 ^ 64 ->
  forall i,
    0 <= i <= size feature_word + 1 ->
    size feature_word + 2 <= i + Z.of_nat cnt ->
    chargram_loop self feature_word order i cnt = Fail out_of_range.
Proof.
  intros Hn Hsize. pose proof (size_nonneg feature_word) as Hs.
  induction cnt as [|cnt IH]; intros i Hi Hcnt; [lia|].
  cbn [chargram_loop]. rewrite (to_size_t_small i) by lia.
  destruct (Z.eq_dec i (size feature_word + 1)) as [->|Hne].
  - unfold substr.
    replace (size feature_word <? size feature_word + 1) with true
      by (symmetry; apply Z.ltb_lt; lia).
    reflexivity.
  - rewrite substr_in_range by lia. cbn [bind].
    match goal with
    | |- context [HashToken self ?g] =>
        destruct (HashToken_returns self g Hn) as [h ->]
    end. cbn [bind].
    rewrite IH by lia. reflexivity.
Qed.

End Overrun.

(** A negative order in byte-oriented mode.  For a token that is not
    padding, with [num_buckets] not zero, and orders and a token length
    for which every loop bound is an [int] (each order [k] is an [int]
    with [size + 4 - k] below 2^31, which the conclusion shows to be
    enough): if any configured order is negative, the byte-oriented
    extractor raises [std::out_of_range], and so does [Extract] in
    byte-oriented mode with both outputs set. *)
Theorem negative_order_raises `{Farmhash} `{ICU}
  (self : TokenFeatureExtractor) (token : Token) :
  is_padding token = false ->
  to_size_t (num_buckets (options_ self)) <> 0 ->
  is_int (max_word_length (options_ self)) ->
  size (value token) + 3 < 2 ^ 31 ->
  Forall (fun k => is_int k /\ size (value token) + 4 - k < 2 ^ 31)
    (chargram_orders (options_ self)) ->
  Exists (fun k => k < 0) (chargram_orders (options_ self)) ->
  (exists feature_word,
     feature_word_ascii self token = Ret feature_word /\
     Forall (int_bound_defined feature_word) (chargram_orders (options_ self)))
  /\
  ExtractCharactergramFeaturesAscii self token = Fail out_of_range /\
  (unicode_aware_features (options_ self) = false ->
   forall sparse0 dense0,
     Extract self token (Some sparse0) (Some dense0) = Fail out_of_range).
Proof.
  intros Hpad Hn Hint Hsize Hbound Hneg.
  destruct (feature_word_ascii_returns self token Hint) as [fw Hfw];
    [unfold max_size; lia|].
  split.
  { exists fw. split; [exact Hfw|].
    apply (loop_bounds_defined self token fw); assumption. }
  assert (Hascii : ExtractCharactergramFeaturesAscii self token
                   = Fail out_of_range).
  { unfold ExtractCharactergramFeaturesAscii. rewrite Hpad.
    rewrite Hfw. cbn [bind].
    pose proof (feature_word_ascii_size self token fw Hint
                  ltac:(unfold max_size; lia) Hfw) as Hfs.
    clear Hbound.
    induction Hneg as [k orders Hk|k orders _ IH]; cbn [for_each_order].
    - assert (Hfail : chargrams_ascii self fw k = Fail out_of_range).
      { unfold chargrams_ascii.
        destruct (Z.eqb_spec k 1) as [->|_]; [lia|].
        rewrite to_int_small by (unfold is_int; lia).
        apply chargram_loop_overrun; try assumption; lia. }
      rewrite Hfail. reflexivity.
    - destruct (Z_lt_le_dec k 0) as [Hk|Hk].
      + assert (Hfail : chargrams_ascii self fw k = Fail out_of_range).
        { unfold chargrams_ascii.
          destruct (Z.eqb_spec k 1) as [->|_]; [lia|].
          rewrite to_int_small by (unfold is_int; lia).
          apply chargram_loop_overrun; try assumption; lia. }
        rewrite Hfail. reflexivity.
      + destruct (chargrams_ascii_returns self fw k Hn Hk) as [r ->].
        cbn [bind]. rewrite IH. reflexivity. }
  split; [exact Hascii|].
  intros Hmode sparse0 dense0. rewrite Extract_non_null.
  unfold ExtractCharactergramFeatures. rewrite Hmode, Hascii. reflexivity.
Qed.

Lemma resize_length {A : Type} (v : list (list A)) (n : nat) :
  length (resize v n) = n.
Proof.
  unfold resize. rewrite length_app, length_firstn, repeat_length. lia.
Qed.

(** The batch form is the single-token form at every position.  When it
    returns, both output vectors have one entry per token, and entry [i]
    of each is what [Extract] on token [i] leaves in the entry [i] of
    the resized vectors: the sparse ids of the token, and the dense
    values already there followed by those of the token. *)
Theorem Extract_tokens_pointwise `{Farmhash} `{ICU}
  (self : TokenFeatureExtractor) (tokens : list Token)
  (sparse0 : list (list Z)) (dense0 : list (list Q)) flag ss ds :
  Extract_tokens self tokens (Some sparse0) (Some dense0)
  = Ret (flag, Some ss, Some ds) ->
  flag = true /\ length ss = length tokens /\ length ds = length tokens /\
  forall i token,
    nth_error tokens i = Some token ->
    exists s0 d0 sparse dense,
      nth_error (resize sparse0 (length tokens)) i = Some s0 /\
      nth_error (resize dense0 (length tokens)) i = Some d0 /\
      Extract self token (Some s0) (Some d0)
      = Ret (true, Some sparse, Some dense) /\
      nth_error ss i = Some sparse /\ nth_error ds i = Some dense.
Proof.
  unfold Extract_tokens.
  pose proof (resize_length sparse0 (length tokens)) as Hls.
  pose proof (resize_length dense0 (length tokens)) as Hld.
  revert Hls Hld.
  generalize (resize sparse0 (length tokens)) as sparse.
  generalize (resize dense0 (length tokens)) as dense.
  intros dense sparse Hls Hld.
  destruct (Extract_loop self tokens sparse dense) as [[[flag' ss'] ds']|] eqn:Hl;
    cbn [bind]; [|discriminate].
  intros Heq. injection Heq as -> -> ->.
  revert sparse dense Hls Hld flag ss ds Hl.
  induction tokens as [|token tokens IH];
    intros sparse dense Hls Hld flag ss ds Hl.
  - destruct sparse; [|discriminate]. destruct dense; [|discriminate].
    simpl in Hl. injection Hl as <- <- <-.
    repeat split. intros [|i] token' Hi; discriminate.
  - destruct sparse as [|s sparse]; [discriminate|].
    destruct dense as [|d dense]; [discriminate|].
    cbn [Extract_loop] in Hl. rewrite Extract_non_null in Hl.
    destruct (ExtractCharactergramFeatures self token) as [ids|] eqn:Hids;
      cbn [bind negb] in Hl; [|discriminate].
    destruct (Extract_loop self tokens sparse dense) as [[[flag' ss'] ds']|]
      eqn:Hrest; cbn [bind] in Hl; [|discriminate].
    injection Hl as <- <- <-.
    simpl in Hls, Hld.
    destruct (IH sparse dense ltac:(lia) ltac:(lia) _ _ _ Hrest)
      as (Hflag & Hlss & Hlds & Hnth).
    split; [exact Hflag|]. split; [simpl; lia|]. split; [simpl; lia|].
    intros [|i] token' Hi.
    + simpl in Hi. injection Hi as <-.
      eexists s, d, _, _. repeat split.
      rewrite Extract_non_null, Hids. reflexivity.
    + simpl in Hi. apply Hnth in Hi. exact Hi.
Qed.

(** Digit remapping.  In both extractors it keeps the number of
    characters (bytes, resp. codepoints), leaves no digit other than '0'
    (byte-oriented) and changes nothing when applied a second time. *)
Theorem digit_remapping_is_idempotent `{ICU} (token : std_string) :
  (length (MapDigitsToZeroAscii token) = length token /\
   Forall (fun c => isdigit c = true -> c = zero_char)
     (MapDigitsToZeroAscii token) /\
   MapDigitsToZeroAscii (MapDigitsToZeroAscii token)
   = MapDigitsToZeroAscii token) /\
  (length (MapDigitsToZeroUnicode token) = length (UTF8ToUnicodeText token) /\
   MapDigitsToZeroUnicode (concat (MapDigitsToZeroUnicode token))
   = MapDigitsToZeroUnicode token).
Proof.
  split; [split; [|split]|split].
  - apply MapDigitsToZeroAscii_length.
  - unfold MapDigitsToZeroAscii. apply Forall_map. apply Forall_forall.
    intros c _. destruct (isdigit c) eqn:Hc; [reflexivity|]. congruence.
  - unfold MapDigitsToZeroAscii. rewrite map_map. apply map_ext. intros c.
    destruct (isdigit c) eqn:Hc; [reflexivity|]. rewrite Hc. reflexivity.
  - rewrite MapDigitsToZeroUnicode_chars. apply length_map.
  - rewrite (MapDigitsToZeroUnicode_chars
               (concat (MapDigitsToZeroUnicode token))).
    rewrite (MapDigitsToZeroUnicode_chars token).
    unfold UTF8ToUnicodeText at 2.
    rewrite (chars_of_replace (fun ch => u_isdigit (codepoint ch)) zero_char
               eq_refl (length token) token (le_n _)).
    rewrite map_map. apply map_ext. intros ch.
    destruct (u_isdigit (codepoint ch)) eqn:Hch.
    + destruct (u_isdigit (codepoint [zero_char])); reflexivity.
    + rewrite Hch. reflexivity.
Qed.


End ExtractorCoverage.

Module ExtractorCoverageExamples.

Import Smartselect ExtractorProperties ExtractorCoverage Sample.
Local Open Scope Z_scope.

#[local] Existing Instance Sample.fingerprint.
#[local] Existing Instance Sample.icu.

(** Order 0 pushes one id more than the feature word has bytes. *)
Example order_zero_exceeds_reserve :
  ExtractCharactergramFeaturesAscii (New (options false [0] 20))
    (token (lit "ab"))
  = Ret [7; 7; 7; 7; 7]
  /\ feature_word_ascii (New (options false [0] 20)) (token (lit "ab"))
     = Ret (lit "^ab$").
Proof. vm_compute. split; reflexivity. Qed.

(** The five ids of "ab" for orders 1 and 2, against 2 * 4. *)
Lemma chargram_count_within_reserve_witness :
  (length [314; 315; 738; 832; 801]%Z
   <= length (chargram_orders (options_ (New (options false [1; 2]%Z 20%Z))))
      * length (lit "^ab$"))%nat.
Proof.
  apply (proj1 (chargram_count_within_reserve
                  (New (options false [1; 2] 20)) (token (lit "ab"))
                  [314; 315; 738; 832; 801] eq_refl
                  ltac:(repeat constructor; discriminate))
           (lit "^ab$")).
  - vm_compute. reflexivity.
  - vm_compute. reflexivity.
Defined.

(** "abcdefgh" with [max_word_length] 5 keeps "ab" and "gh". *)
Lemma long_word_is_trimmed_ascii_witness :
  feature_word_ascii (New (options false [2] 5)) (token (lit "abcdefgh"))
  = Ret (lit "^ab" ++ separator ++ lit "gh$").
Proof.
  apply (proj1 (long_word_is_trimmed_ascii
                  (New (options false [2] 5)) (token (lit "abcdefgh"))
                  ltac:(int_range)
                  ltac:(vm_compute; discriminate)
                  ltac:(vm_compute; split; [discriminate|reflexivity]))).
Defined.

(** Orders 2 and -1 on "ab". *)
Lemma negative_order_raises_witness :
  ExtractCharactergramFeaturesAscii (New (options false [2; -1] 20))
    (token (lit "ab"))
  = Fail out_of_range.
Proof.
  refine (proj1 (proj2 (negative_order_raises
                          (New (options false [2; -1] 20)) (token (lit "ab"))
                          eq_refl _ _ eq_refl _ _))).
  - vm_compute. discriminate.
  - int_range.
  - repeat constructor; vm_compute; discriminate.
  - right. left. reflexivity.
Defined.

(** The batch form on "ab" and "Zx" with fresh outputs. *)
Lemma Extract_tokens_pointwise_witness :
  length [[314; 315; 738; 832; 801]; [307; 337; 731; 637; 483]]
  = length [token (lit "ab"); token (lit "Zx")]
  /\ exists s0 d0 sparse dense,
      nth_error (resize (@nil (list Z)) 2) 1 = Some s0 /\
      nth_error (resize (@nil (list Q)) 2) 1 = Some d0 /\
      Extract (New (options false [1; 2] 20)) (token (lit "Zx"))
        (Some s0) (Some d0)
      = Ret (true, Some sparse, Some dense) /\
      nth_error [[314; 315; 738; 832; 801]; [307; 337; 731; 637; 483]] 1
      = Some sparse /\
      nth_error [[f_minus_one; f_zero; f_one; f_minus_one];
                 [f_one; f_zero; f_minus_one; f_minus_one]] 1
      = Some dense.
Proof.
  assert (Heq : Extract_tokens (New (options false [1; 2] 20))
                  [token (lit "ab"); token (lit "Zx")] (Some []) (Some [])
                = Ret (true,
                       Some [[314; 315; 738; 832; 801]; [307; 337; 731; 637; 483]],
                       Some [[f_minus_one; f_zero; f_one; f_minus_one];
                             [f_one; f_zero; f_minus_one; f_minus_one]]))
    by (vm_compute; reflexivity).
  pose proof (Extract_tokens_pointwise _ _ _ _ _ _ _ Heq)
    as (_ & Hlen & _ & Hnth).
  split; [exact Hlen|].
  exact (Hnth 1%nat (token (lit "Zx")) eq_refl).
Defined.

End ExtractorCoverageExamples.

(* ================================================================== *)
(** ** More on the language classifier *)
(* ================================================================== *)

Module LangIdCoverage.

Import LangId LangIdProperties.
Local Open Scope Z_scope.

(** Neither setter touches what the scores are computed from. *)
Lemma ScoreLanguages_setters `{Collaborators} (self : LangIdImpl)
  (threshold : Q) (lang text : std_string) :
  ScoreLanguages (SetProbabilityThreshold self threshold) text
  = ScoreLanguages self text
  /\ ScoreLanguages (SetDefaultLanguage self lang) text
     = ScoreLanguages self text.
Proof. split; reflexivity. Qed.

(** The invariant of a valid object.  On every object a caller can hold
    (constructed, then changed by the setters only), [is_valid] is what
    the constructor computed, and a valid object holds network
    parameters that passed [is_valid], and holds them as its network,
    which passed [is_valid] too. *)
Theorem valid_object_invariant `{Collaborators} (self : LangIdImpl) :
  reachable self ->
  (forall threshold lang,
     is_valid (SetProbabilityThreshold self threshold) = is_valid self /\
     is_valid (SetDefaultLanguage self lang) = is_valid self) /\
  (is_valid self = true ->
   exists proto,
     network_ self = Some proto /\ network_params_ self = Some proto /\
     params_is_valid proto = true /\ network_is_valid proto = true).
Proof.
  intros Hreach. split; [intros; split; reflexivity|].
  induction Hreach as [h|self q _ IH|self l _ IH]; simpl; auto.
  apply Initialize_valid_network.
Qed.

(** Raising the threshold never produces a new answer: for thresholds
    [low <= high], [FindLanguage] with [high] returns what it returns
    with [low], or [default_language_]. *)
Theorem raising_threshold_only_defaults `{Collaborators} (self : LangIdImpl)
  (low high : Q) (text : std_string) :
  (low <= high)%Q ->
  FindLanguage (SetProbabilityThreshold self high) text
  = FindLanguage (SetProbabilityThreshold self low) text
  \/ FindLanguage (SetProbabilityThreshold self high) text
     = default_language_ self.
Proof.
  intros Hle.
  destruct (ScoreLanguages self text) as [|s scores] eqn:Hs.
  - right. unfold FindLanguage.
    change (ScoreLanguages (SetProbabilityThreshold self high) text)
      with (ScoreLanguages self text).
    rewrite Hs. reflexivity.
  - assert (Hne : forall t,
               ScoreLanguages (SetProbabilityThreshold self t) text <> []).
    { intros t.
      change (ScoreLanguages (SetProbabilityThreshold self t) text)
        with (ScoreLanguages self text).
      rewrite Hs. discriminate. }
    rewrite !FindLanguage_nonempty by apply Hne. cbn zeta.
    change (ScoreLanguages (SetProbabilityThreshold self high) text)
      with (ScoreLanguages self text).
    change (ScoreLanguages (SetProbabilityThreshold self low) text)
      with (ScoreLanguages self text).
    cbn [probability_threshold_ SetProbabilityThreshold languages_
         default_language_].
    destruct (float_lt _ high) eqn:Hhigh; [right; reflexivity|].
    left.
    replace (float_lt (at_index (ScoreLanguages self text)
                         (GetArgMax (ScoreLanguages self text))) low)
      with false; [reflexivity|].
    symmetry. apply float_lt_false. apply float_lt_false in Hhigh.
    eapply Qle_trans; eassumption.
Qed.

(** [FindLanguage] never invents an answer: it returns
    [default_language_] or an entry of the loaded language list. *)
Theorem FindLanguage_answers_from_list `{Collaborators} (self : LangIdImpl)
  (text : std_string) :
  FindLanguage self text = default_language_ self
  \/ In (FindLanguage self text) (languages_ self).
Proof.
  destruct (ScoreLanguages self text) as [|s scores] eqn:Hs.
  - left. unfold FindLanguage. rewrite Hs. reflexivity.
  - assert (Hne : ScoreLanguages self text <> []) by (rewrite Hs; discriminate).
    rewrite FindLanguage_nonempty by exact Hne. cbn zeta.
    destruct (GetArgMax_spec _ Hne) as (Hr & _).
    destruct (float_lt _ _); [left; reflexivity|].
    destruct (_ <? _) eqn:Hlt; [|left; reflexivity].
    right. apply Z.ltb_lt in Hlt. apply nth_In. lia.
Qed.

(** The two queries agree.  When [FindLanguage] passes the threshold
    test, its answer and the probability it compared are the pair of
    [FindLanguages] at the arg-max index. *)
Theorem FindLanguage_is_entry_of_FindLanguages `{Collaborators}
  (self : LangIdImpl) (text : std_string) :
  ScoreLanguages self text <> [] ->
  float_lt (at_index (ScoreLanguages self text)
              (GetArgMax (ScoreLanguages self text)))
    (probability_threshold_ self) = false ->
  nth_error (FindLanguages self text)
    (Z.to_nat (GetArgMax (ScoreLanguages self text)))
  = Some (FindLanguage self text,
          at_index (ScoreLanguages self text)
            (GetArgMax (ScoreLanguages self text))).
Proof.
  intros Hne Hthr. destruct (GetArgMax_spec _ Hne) as (Hr & _).
  unfold FindLanguages. rewrite FindLanguages_loop_nth by lia.
  rewrite Z.add_0_l, Z2Nat.id by lia.
  unfold FindLanguage.
  destruct (ScoreLanguages self text) as [|s scores]; [congruence|].
  rewrite Hthr. reflexivity.
Qed.

(** [SetDefaultLanguage] changes the fallback and nothing else: the
    scores and [FindLanguages]' probabilities stay, and [FindLanguage]
    either keeps its answer or answered the old default before and
    answers the new one now. *)
Theorem SetDefaultLanguage_changes_fallback_only `{Collaborators}
  (self : LangIdImpl) (lang text : std_string) :
  map snd (FindLanguages (SetDefaultLanguage self lang) text)
  = map snd (FindLanguages self text) /\
  (FindLanguage (SetDefaultLanguage self lang) text = FindLanguage self text
   \/ (FindLanguage self text = default_language_ self /\
       FindLanguage (SetDefaultLanguage self lang) text = lang)).
Proof.
  split.
  - unfold FindLanguages. rewrite !FindLanguages_loop_snd. reflexivity.
  - destruct (ScoreLanguages self text) as [|s scores] eqn:Hs.
    + right. unfold FindLanguage.
      change (ScoreLanguages (SetDefaultLanguage self lang) text)
        with (ScoreLanguages self text).
      rewrite Hs. split; reflexivity.
    + assert (Hne : ScoreLanguages self text <> [])
        by (rewrite Hs; discriminate).
      assert (Hne' : ScoreLanguages (SetDefaultLanguage self lang) text <> [])
        by exact Hne.
      rewrite !FindLanguage_nonempty by assumption. cbn zeta.
      change (ScoreLanguages (SetDefaultLanguage self lang) text)
        with (ScoreLanguages self text).
      cbn [probability_threshold_ SetDefaultLanguage languages_
           default_language_].
      destruct (float_lt _ _); [right; split; reflexivity|].
      destruct (_ <? _); [left; reflexivity|right; split; reflexivity].
Qed.

(** [Initialize] never touches [default_language_], whichever step it
    stops at. *)
Lemma ParseNetworkParams_default_language `{Collaborators} (self : LangIdImpl)
  (model_bytes : std_string) (context : TaskContext) :
  default_language_ (snd (ParseNetworkParams self model_bytes context))
  = default_language_ self.
Proof.
  unfold ParseNetworkParams.
  destruct (is_empty _); [reflexivity|].
  destruct (GetBytesForInputFile _ _); [|reflexivity].
  destruct (ParseEmbeddingNetworkProto _); [|reflexivity].
  destruct (negb _); reflexivity.
Qed.

Lemma ParseListOfKnownLanguages_default_language `{Collaborators}
  (self : LangIdImpl) (model_bytes : std_string) (context : TaskContext) :
  default_language_ (snd (ParseListOfKnownLanguages self model_bytes context))
  = default_language_ self.
Proof.
  unfold ParseListOfKnownLanguages.
  destruct (is_empty _); [reflexivity|].
  destruct (GetBytesForInputFile _ _); [|reflexivity].
  destruct (ParseListOfStrings _) as [[|] [|record [|? ?]]]; try reflexivity.
  destruct (ParseListOfStrings record) as [[|] ?]; reflexivity.
Qed.

Lemma Initialize_default_language `{Collaborators} (self : LangIdImpl)
  (mmap_handle : MmapHandle) :
  default_language_ (Initialize self mmap_handle) = default_language_ self.
Proof.
  unfold Initialize.
  destruct (ok mmap_handle); simpl; [|reflexivity].
  destruct (GetTaskSpec (to_stringpiece mmap_handle)) as [context|];
    [|reflexivity].
  pose proof (ParseNetworkParams_default_language (set_valid self false)
                (to_stringpiece mmap_handle) context) as Hn.
  destruct (ParseNetworkParams _ _ _) as [parsed self1]. simpl in Hn.
  destruct parsed; simpl; [|exact Hn].
  pose proof (ParseListOfKnownLanguages_default_language self1
                (to_stringpiece mmap_handle) context) as Hl.
  destruct (ParseListOfKnownLanguages _ _ _) as [parsed self2]. simpl in Hl.
  destruct parsed; simpl; [|congruence].
  destruct (match network_params_ self2 with
            | Some n => network_is_valid n
            | None => false
            end); simpl; [|congruence].
  destruct (brain_Init _ _) as [[|] brain]; simpl; congruence.
Qed.

(** A classifier whose model failed to load: for every text
    [FindLanguage] answers the empty string until a default language is
    set and that language afterwards, whatever the threshold, and
    [FindLanguages] answers the empty list. *)
Theorem failed_load_answers `{Collaborators} (mmap_handle : MmapHandle)
  (threshold : Q) (lang text : std_string) :
  is_valid (New mmap_handle) = false ->
  FindLanguage (SetProbabilityThreshold (New mmap_handle) threshold) text
  = lit "" /\
  FindLanguage
    (SetDefaultLanguage (SetProbabilityThreshold (New mmap_handle) threshold)
       lang) text = lang /\
  FindLanguages
    (SetDefaultLanguage (SetProbabilityThreshold (New mmap_handle) threshold)
       lang) text = [].
Proof.
  intros Hv.
  assert (Hs : forall self, is_valid self = is_valid (New mmap_handle) ->
                 ScoreLanguages self text = []).
  { intros self Heq. apply ScoreLanguages_invalid. congruence. }
  unfold FindLanguages, FindLanguage.
  rewrite !Hs by reflexivity.
  cbn [FindLanguages_loop default_language_ SetProbabilityThreshold
       SetDefaultLanguage].
  split; [|split; reflexivity].
  unfold New. rewrite Initialize_default_language. reflexivity.
Qed.


End LangIdCoverage.

Module LangIdCoverageExamples.

Import LangId LangIdProperties LangIdCoverage Sample.
Local Open Scope Z_scope.

#[local] Existing Instance Sample.collaborators.

(** A loaded model after both setters. *)
Lemma valid_object_invariant_witness :
  exists proto,
    network_ (SetDefaultLanguage
                (SetProbabilityThreshold (New en_fr_first) (9 # 10)) (lit "und"))
    = Some proto
    /\ network_params_
         (SetDefaultLanguage
            (SetProbabilityThreshold (New en_fr_first) (9 # 10)) (lit "und"))
       = Some proto
    /\ params_is_valid proto = true /\ network_is_valid proto = true.
Proof.
  apply (proj2 (valid_object_invariant
                  (SetDefaultLanguage
                     (SetProbabilityThreshold (New en_fr_first) (9 # 10))
                     (lit "und"))
                  (reachable_SetDefaultLanguage _ _
                     (reachable_SetProbabilityThreshold _ _
                        (reachable_New en_fr_first))))).
  vm_compute. reflexivity.
Defined.

(** Thresholds 1/2 and 9/10 on scores [1/3; 2/3]: "fr", then the
    default. *)
Lemma raising_threshold_only_defaults_witness :
  FindLanguage (SetProbabilityThreshold (New en_fr_first) (1 # 2)) (lit "hi")
  = lit "fr"
  /\ FindLanguage (SetProbabilityThreshold (New en_fr_first) (9 # 10)) (lit "hi")
     = lit ""
  /\ (FindLanguage (SetProbabilityThreshold (New en_fr_first) (9 # 10)) (lit "hi")
      = FindLanguage (SetProbabilityThreshold (New en_fr_first) (1 # 2)) (lit "hi")
      \/ FindLanguage (SetProbabilityThreshold (New en_fr_first) (9 # 10)) (lit "hi")
         = default_language_ (New en_fr_first)).
Proof.
  split; [vm_compute; reflexivity|]. split; [vm_compute; reflexivity|].
  apply (raising_threshold_only_defaults (New en_fr_first) (1 # 2) (9 # 10)
           (lit "hi")).
  vm_compute. discriminate.
Defined.

(** "fr" with probability 2/3 is the second pair of [FindLanguages]. *)
Lemma FindLanguage_is_entry_of_FindLanguages_witness :
  nth_error (FindLanguages (New en_fr_first) (lit "hi")) 1
  = Some (lit "fr", 2 # 3).
Proof.
  assert (Hne : ScoreLanguages (New en_fr_first) (lit "hi") <> [])
    by (vm_compute; discriminate).
  assert (Hthr : float_lt
                   (at_index (ScoreLanguages (New en_fr_first) (lit "hi"))
                      (GetArgMax (ScoreLanguages (New en_fr_first) (lit "hi"))))
                   (probability_threshold_ (New en_fr_first)) = false)
    by (vm_compute; reflexivity).
  exact (FindLanguage_is_entry_of_FindLanguages (New en_fr_first) (lit "hi")
           Hne Hthr).
Defined.

(** A mapping that failed (null start). *)
Lemma failed_load_answers_witness :
  FindLanguage (SetProbabilityThreshold (New (mapped 0 (lit "2en,fr"))) (0 # 1))
    (lit "hi") = lit "" /\
  FindLanguage
    (SetDefaultLanguage
       (SetProbabilityThreshold (New (mapped 0 (lit "2en,fr"))) (0 # 1))
       (lit "und")) (lit "hi") = lit "und" /\
  FindLanguages
    (SetDefaultLanguage
       (SetProbabilityThreshold (New (mapped 0 (lit "2en,fr"))) (0 # 1))
       (lit "und")) (lit "hi") = [].
Proof.
  apply (failed_load_answers (mapped 0 (lit "2en,fr")) (0 # 1) (lit "und")
           (lit "hi")).
  vm_compute. reflexivity.
Defined.


End LangIdCoverageExamples.
